(** * The line-chart coordinate engine of [packages/ui/src/charts/lines]

    A shallow embedding of the reactive store built by [createState]
    (the dataset and legend maps, the reactive layout state, the derived
    [maxValue], [axisValues], [segments] and [tooltip], and the actions) and of
    the [useThrottle] wrapper that guards the mouse-move handler, followed by
    the components around the store: the measurement of the columns, the
    column and tooltip logic, the legend list, the default filter, and the
    [paints] helper of the pages.

    Modelling conventions.
    - A JavaScript [number] that carries a measurement (a metric value, a pixel
      coordinate, the axis origin) is an exact rational [Q]; rounding, NaN and
      the infinities of IEEE doubles are outside this model.  Identifiers of
      type [number | string] are [Id]s whose numeric case is an integer, and
      array indices and millisecond clock readings are [nat] and [Z].
    - [null] is [None]; reading an array out of range gives [undefined], again
      [None] of the lookup.  Reading a property of [undefined] raises a
      [TypeError], which is the [Throw] case of [Result].
    - A Vue [computed] is a pure function of the store it reads; an action is a
      function from stores to stores. *)

From Stdlib Require Import QArith Qround Lqa.
From stdpp Require Import gmap strings list pretty.

Set Default Proof Using "Type".
Local Open Scope Z_scope.

(** ** Exceptions *)

Inductive Error : Type := TypeError.

Inductive Result (A : Type) : Type :=
  | Ok (a : A)
  | Throw (e : Error).
Arguments Ok {A} a.
Arguments Throw {A} e.

#[global] Instance Result_ret : MRet Result := @Ok.
#[global] Instance Result_bind : MBind Result := λ A B f r,
  match r with
  | Ok a => f a
  | Throw e => Throw e
  end.
#[global] Instance Result_fmap : FMap Result := λ A B f r,
  match r with
  | Ok a => Ok (f a)
  | Throw e => Throw e
  end.

(** [Array.prototype.map] with a callback [(element, index) => ...] that may
    raise: elements are visited from left to right and the first exception
    aborts the traversal. *)
Fixpoint mapi_from {A B : Type} (f : A → nat → Result B) (j : nat) (l : list A)
  : Result (list B) :=
  match l with
  | [] => Ok []
  | a :: l' =>
      b ← f a j;
      bs ← mapi_from f (S j) l';
      Ok (b :: bs)
  end.

Definition Array_map {A B : Type} (f : A → nat → Result B) (l : list A)
  : Result (list B) :=
  mapi_from f 0%nat l.

(** ** Data model ([types/index.ts]) *)

(** [number | string] identifiers. *)
Inductive Id : Type :=
  | IdNum (n : Z)
  | IdStr (s : string).

#[global] Instance Id_eq_dec : EqDecision Id.
Proof. solve_decision. Defined.

#[global] Instance Id_countable : Countable Id :=
  inj_countable'
    (λ i, match i with IdNum n => inl n | IdStr s => inr s end)
    (λ x, match x with inl n => IdNum n | inr s => IdStr s end)
    (λ i, match i with IdNum _ | IdStr _ => eq_refl end).

(** The string an identifier contributes to a template literal (a numeric
    identifier is an integer written in decimal digits). *)
Definition Id_toString (i : Id) : string :=
  match i with
  | IdNum n => pretty n
  | IdStr s => s
  end.

Record Coord : Type := { coord_x : Q; coord_y : Q }.

(** [Coord | NullableCoord]; [NullCoord] is the object [{ x: null, y: null }]. *)
Inductive PointCoord : Type :=
  | PCoord (c : Coord)
  | NullCoord.

Record Legend : Type := { legend_color : string; legend_name : string }.

(** The [percents] of a metric are numbers or [null] (no data). *)
Record Metric : Type := {
  metric_id : option Id;
  metric_name : string;
  percents : list (option Q);
}.

Record Dataset : Type := {
  dataset_id : Id;
  dataset_name : string;
  metrics : list Metric;
}.

Record Path : Type := { path_start : PointCoord; path_end : PointCoord }.

Record Segment : Type := {
  segment_id : Id;
  segment_name : string;
  segment_color : string;
  pointCoords : list PointCoord;
  pathCoords : list Path;
}.

(** [percent] is [metric.percents[k]]: [None] is [undefined] (no such index),
    [Some None] is [null]. *)
Record TooltipMetric : Type := {
  tm_name : string;
  tm_percent : option (option Q);
  tm_color : string;
}.

Record Tooltip : Type := {
  tooltip_name : string;
  tooltip_metrics : list TooltipMetric;
  tooltip_position : option Coord;
}.

Record Hovered : Type := { hovered_id : nat; hovered_name : string }.

Record InitialValue : Type := {
  columns : nat;
  columnLabels : list string;
  legends : list Legend;
  datasetLabel : string;
  datasets : list Dataset;
}.

Record ReactiveState : Type := {
  axisYOrigin : option Q;
  columnsCoords : option (list Coord);
  mouseCoords : Coord;
  hoveredSegment : option Hovered;
  highlightSegment : option string;
  filterIdDataset : Id;
  filterLegends : list Legend;
}.

(** The store of one chart: the initial value it was created from (its
    [legends] and [datasets] are never reassigned), the mutable [columnWidth]
    and the reactive state. *)
Record State : Type := {
  initialValue : InitialValue;
  columnWidth : option Q;
  reactive : ReactiveState;
}.

(** ** [createState] *)

(** [new Map(initialValue.datasets.map((dataset) => [dataset.id, dataset]))]:
    entries are inserted in order, so a later entry replaces an earlier one
    with the same key. *)
Definition datasetsMap (iv : InitialValue) : gmap Id Dataset :=
  foldl (λ m dataset, <[dataset_id dataset := dataset]> m) ∅ (datasets iv).

Definition legendsMap (iv : InitialValue) : gmap string Legend :=
  foldl (λ m legend, <[legend_name legend := legend]> m) ∅ (legends iv).

Definition minValue : Q := 0%Q.

(** [initialValue.datasets[0].id] raises when there is no dataset. *)
Definition createState (iv : InitialValue) : Result State :=
  match datasets iv with
  | [] => Throw TypeError
  | dataset0 :: _ =>
      Ok {| initialValue := iv;
            columnWidth := None;
            reactive :=
              {| axisYOrigin := None;
                 columnsCoords := None;
                 mouseCoords := {| coord_x := (-1)%Q; coord_y := (-1)%Q |};
                 hoveredSegment := None;
                 highlightSegment := None;
                 filterIdDataset := dataset_id dataset0;
                 filterLegends := take 5 (legends iv) |} |}
  end.

Definition isMetricFiltered (s : State) (metricName : string) : bool :=
  existsb (λ legend, bool_decide (legend_name legend = metricName))
          (filterLegends (reactive s)).

(** [Math.max(v, ...vs)] on at least one argument. *)
Definition Math_max (v : Q) (vs : list Q) : Q :=
  foldl (λ a b, if Qle_bool a b then b else a) v vs.

Definition Math_ceil (q : Q) : Q := inject_Z (Qceiling q).

(** [metric.percents.filter((percent) => percent !== null)] *)
Definition nonNull (ps : list (option Q)) : list Q := omap id ps.

(** The local [values] of [maxValue]: the non-null values of the metrics whose
    name is in the legend filter. *)
Definition selectedValues (s : State) (dataset : Dataset) : list Q :=
  metrics dataset ≫= λ metric,
    let isSelected :=
      existsb (λ legend, bool_decide (legend_name legend = metric_name metric))
              (filterLegends (reactive s)) in
    if isSelected then nonNull (percents metric) else [].

Definition maxValue (s : State) : Q :=
  match datasetsMap (initialValue s) !! filterIdDataset (reactive s) with
  | None => 100%Q
  | Some dataset =>
      match selectedValues s dataset with
      | [] => 100%Q
      | v :: vs => Math_max v vs
      end
  end.

Definition axisValues (s : State) : list Q :=
  [ Math_ceil (maxValue s);
    Math_ceil ((3 * maxValue s) / 4)%Q;
    Math_ceil ((2 * maxValue s) / 4)%Q;
    Math_ceil (maxValue s / 4)%Q;
    minValue ].

(** ** [useAdjustCoordinates] *)

Inductive Axis : Type := AxisX | AxisY.

Definition useAdjustCoordinates (x y center : Q) (axis : Axis) : Coord :=
  let adjust (coordinate : Q) : Q := (center - (coordinate / 100) * center)%Q in
  match axis with
  | AxisX => {| coord_x := adjust x; coord_y := y |}
  | AxisY => {| coord_x := x; coord_y := adjust y |}
  end.

(** ** [segments] *)

(** The callback of [metric.percents.map((percent, j) => ...)].  The read
    [columnsCoords[j].x] raises when there is no column [j].  The quotient
    [percent / maxValue] is the rational one: it stands for the code's only
    where [maxValue] is not zero (a zero divisor gives NaN or an infinity),
    and the statements about y coordinates below assume as much. *)
Definition pointCoord (s : State) (cols : list Coord) (percent : option Q) (j : nat)
  : Result PointCoord :=
  match percent with
  | None => Ok NullCoord
  | Some percent =>
      let normalizedPercent := ((percent / maxValue s) * 100)%Q in
      match cols !! j with
      | None => Throw TypeError
      | Some col =>
          Ok (PCoord (useAdjustCoordinates
                        (coord_x col)
                        normalizedPercent
                        (default 0%Q (axisYOrigin (reactive s)))
                        AxisY))
      end
  end.

(** [pointCoords.slice(0, -1).map((coord, j) => ({ start: coord, end: pointCoords[j + 1] }))].
    The index [j + 1] is always in range (lemma [mkPathCoords_lookup]), so the
    fallback of the read is never taken. *)
Definition mkPathCoords (pointCoords : list PointCoord) : list Path :=
  imap (λ j coord,
          {| path_start := coord;
             path_end := default NullCoord (pointCoords !! (j + 1)%nat) |})
       (take (length pointCoords - 1) pointCoords).

Definition legendColor (s : State) (metricName : string) : string :=
  default "#000000" (legend_color <$> legendsMap (initialValue s) !! metricName).

(** The segment pushed for metric number [i] of the dataset. *)
Definition mkSegment (s : State) (cols : list Coord) (dataset : Dataset)
    (i : nat) (metric : Metric) : Result Segment :=
  pointCoords ← Array_map (pointCoord s cols) (percents metric);
  let pathCoords := mkPathCoords pointCoords in
  Ok {| segment_id :=
          default (IdStr (pretty i +:+ "-" +:+ Id_toString (dataset_id dataset)
                            +:+ "-" +:+ dataset_name dataset))
                  (metric_id metric);
        segment_name := metric_name metric;
        segment_color := legendColor s (metric_name metric);
        pointCoords := pointCoords;
        pathCoords := pathCoords |}.

(** The reducer of [dataset.metrics.reduce((acc, metric, i) => ..., [])]. *)
Definition segmentsReducer (s : State) (cols : list Coord) (dataset : Dataset)
    (acc : Result (list Segment)) (im : nat * Metric) : Result (list Segment) :=
  acc ← acc;
  if negb (isMetricFiltered s (metric_name im.2)) then Ok acc
  else
    segment ← mkSegment s cols dataset im.1 im.2;
    Ok (acc ++ [segment]).

Definition segments (s : State) : Result (option (list Segment)) :=
  match columnsCoords (reactive s) with
  | None => Ok None
  | Some cols =>
      match datasetsMap (initialValue s) !! filterIdDataset (reactive s) with
      | None => Ok None
      | Some dataset =>
          Some <$> foldl (segmentsReducer s cols dataset) (Ok [])
                         (imap pair (metrics dataset))
      end
  end.

(** ** [tooltip] *)

(** None of the reads of [tooltip] can raise: every array read is followed by
    no property access. *)
Definition tooltip (s : State) : Result (option Tooltip) :=
  match columnsCoords (reactive s), hoveredSegment (reactive s) with
  | Some cols, Some hovered =>
      match datasetsMap (initialValue s) !! filterIdDataset (reactive s) with
      | None => Ok None
      | Some dataset =>
          let metrics :=
            (λ metric,
               {| tm_name := metric_name metric;
                  tm_percent := percents metric !! hovered_id hovered;
                  tm_color := legendColor s (metric_name metric) |})
              <$> filter (λ metric, isMetricFiltered s (metric_name metric))
                         (metrics dataset) in
          Ok (Some {| tooltip_name := hovered_name hovered;
                      tooltip_metrics := metrics;
                      tooltip_position := cols !! hovered_id hovered |})
      end
  | _, _ => Ok None
  end.

(** ** Actions *)

Definition withReactive (f : ReactiveState → ReactiveState) (s : State) : State :=
  {| initialValue := initialValue s;
     columnWidth := columnWidth s;
     reactive := f (reactive s) |}.

Definition updateIdDataset (newValue : Id) : State → State :=
  withReactive (λ r,
    {| axisYOrigin := axisYOrigin r;
       columnsCoords := columnsCoords r;
       mouseCoords := mouseCoords r;
       hoveredSegment := hoveredSegment r;
       highlightSegment := highlightSegment r;
       filterIdDataset := newValue;
       filterLegends := filterLegends r |}).

Definition updateMouseCoords (newValue : Coord) : State → State :=
  withReactive (λ r,
    {| axisYOrigin := axisYOrigin r;
       columnsCoords := columnsCoords r;
       mouseCoords := newValue;
       hoveredSegment := hoveredSegment r;
       highlightSegment := highlightSegment r;
       filterIdDataset := filterIdDataset r;
       filterLegends := filterLegends r |}).

(** The [Set] of names after the toggle. *)
Definition toggledNames (name : string) (s : State) : gset string :=
  let setLegends : gset string :=
    list_to_set (legend_name <$> filterLegends (reactive s)) in
  if decide (name ∈ setLegends) then setLegends ∖ {[name]}
  else setLegends ∪ {[name]}.

Definition updateFilterLegend (name : string) (s : State) : State :=
  let setLegends := toggledNames name s in
  withReactive (λ r,
    {| axisYOrigin := axisYOrigin r;
       columnsCoords := columnsCoords r;
       mouseCoords := mouseCoords r;
       hoveredSegment := hoveredSegment r;
       highlightSegment := highlightSegment r;
       filterIdDataset := filterIdDataset r;
       filterLegends :=
         filter (λ legend, legend_name legend ∈ setLegends)
                (legends (initialValue s)) |}) s.

(** The remaining actions are [createUpdater] instances: each assigns one
    field and leaves the others alone. *)
Definition updateAxisYOrigin (newValue : option Q) : State → State :=
  withReactive (λ r,
    {| axisYOrigin := newValue;
       columnsCoords := columnsCoords r;
       mouseCoords := mouseCoords r;
       hoveredSegment := hoveredSegment r;
       highlightSegment := highlightSegment r;
       filterIdDataset := filterIdDataset r;
       filterLegends := filterLegends r |}).

Definition updateColumnsCoords (newValue : option (list Coord)) : State → State :=
  withReactive (λ r,
    {| axisYOrigin := axisYOrigin r;
       columnsCoords := newValue;
       mouseCoords := mouseCoords r;
       hoveredSegment := hoveredSegment r;
       highlightSegment := highlightSegment r;
       filterIdDataset := filterIdDataset r;
       filterLegends := filterLegends r |}).

Definition updateColumnWidth (newValue : option Q) (s : State) : State :=
  {| initialValue := initialValue s;
     columnWidth := newValue;
     reactive := reactive s |}.

Definition resetMouseCoords : State → State :=
  updateMouseCoords {| coord_x := (-1)%Q; coord_y := (-1)%Q |}.

Definition updateHoveredSegment (newValue : option Hovered) : State → State :=
  withReactive (λ r,
    {| axisYOrigin := axisYOrigin r;
       columnsCoords := columnsCoords r;
       mouseCoords := mouseCoords r;
       hoveredSegment := newValue;
       highlightSegment := highlightSegment r;
       filterIdDataset := filterIdDataset r;
       filterLegends := filterLegends r |}).

Definition resetHoveredSegment : State → State := updateHoveredSegment None.

Definition updateHighlightSegment (newValue : option string) : State → State :=
  withReactive (λ r,
    {| axisYOrigin := axisYOrigin r;
       columnsCoords := columnsCoords r;
       mouseCoords := mouseCoords r;
       hoveredSegment := hoveredSegment r;
       highlightSegment := newValue;
       filterIdDataset := filterIdDataset r;
       filterLegends := filterLegends r |}).

Definition resetHighlightSegment : State → State := updateHighlightSegment None.

(** The calls a component can make on the store. *)
Inductive Action : Type :=
  | UpdateAxisYOrigin (v : option Q)
  | UpdateColumnsCoords (v : option (list Coord))
  | UpdateColumnWidth (v : option Q)
  | UpdateMouseCoords (v : Coord)
  | ResetMouseCoords
  | UpdateHoveredSegment (v : option Hovered)
  | ResetHoveredSegment
  | UpdateHighlightSegment (v : option string)
  | ResetHighlightSegment
  | UpdateIdDataset (v : Id)
  | UpdateFilterLegend (name : string).

Definition dispatch (a : Action) : State → State :=
  match a with
  | UpdateAxisYOrigin v => updateAxisYOrigin v
  | UpdateColumnsCoords v => updateColumnsCoords v
  | UpdateColumnWidth v => updateColumnWidth v
  | UpdateMouseCoords v => updateMouseCoords v
  | ResetMouseCoords => resetMouseCoords
  | UpdateHoveredSegment v => updateHoveredSegment v
  | ResetHoveredSegment => resetHoveredSegment
  | UpdateHighlightSegment v => updateHighlightSegment v
  | ResetHighlightSegment => resetHighlightSegment
  | UpdateIdDataset v => updateIdDataset v
  | UpdateFilterLegend name => updateFilterLegend name
  end.

(** The stores a chart created from [iv] can be in. *)
Inductive reachable (iv : InitialValue) : State → Prop :=
  | reachable_init s : createState iv = Ok s → reachable iv s
  | reachable_step a s : reachable iv s → reachable iv (dispatch a s).

(** ** [useThrottle] and the mouse-move handler *)

Section useThrottle.
Context {Args World : Type}.
Variable fn : Args → World → World.
Variable wait : Z.

(** The closure returned by [useThrottle(fn, wait)] owns the variable
    [lastTime]; a call reads the clock ([Date.now()], here the argument
    [now]), and either runs [fn] and records the time, or does nothing.
    The boolean tells whether [fn] was invoked. *)
Definition throttled (now : Z) (args : Args) (st : Z * World)
  : bool * (Z * World) :=
  let '(lastTime, w) := st in
  if now - lastTime >=? wait then (true, (now, fn args w))
  else (false, (lastTime, w)).

(** A sequence of calls, each with its clock reading; the result lists for
    every call whether it invoked [fn]. *)
Fixpoint throttledRun (calls : list (Z * Args)) (st : Z * World)
  : list bool * (Z * World) :=
  match calls with
  | [] => ([], st)
  | (now, args) :: calls' =>
      let '(invoked, st') := throttled now args st in
      let '(rest, st'') := throttledRun calls' st' in
      (invoked :: rest, st'')
  end.

(** The closure as [useThrottle] creates it: [let lastTime = 0]. *)
Definition useThrottle (w : World) : Z * World := (0, w).
End useThrottle.

Record MouseEvent : Type := { evt_x : Q; evt_y : Q }.
Record DOMRect : Type := { rect_x : Q; rect_y : Q }.

Definition useMouseCoords (evt : MouseEvent) (container : DOMRect) : Coord :=
  let coordX := (evt_x evt - rect_x container)%Q in
  let coordY := (evt_y evt - rect_y container)%Q in
  {| coord_x := coordX; coord_y := coordY |}.

(** [useThrottle((evt) => updateMouseCoords(useMouseCoords({ evt, container })), 100)];
    a call carries the event and the bounding rectangle the container has at
    that moment. *)
Definition throttledMouseMove
  : Z → MouseEvent * DOMRect → Z * State → bool * (Z * State) :=
  throttled (λ '(evt, container), updateMouseCoords (useMouseCoords evt container)) 100.

Definition mouseMoves (calls : list (Z * (MouseEvent * DOMRect))) (s : State)
  : list bool * (Z * State) :=
  throttledRun
    (λ '(evt, container), updateMouseCoords (useMouseCoords evt container)) 100
    calls (useThrottle s).

(** ** Vocabulary of the statements *)

(** Position, in the list returned by [segments], of the segment built for
    metric number [i] of the dataset: the number of visible metrics before
    it. *)
Definition segmentIndex (s : State) (dataset : Dataset) (i : nat) : nat :=
  length (filter (λ metric, isMetricFiltered s (metric_name metric))
                 (take i (metrics dataset))).

(** The names in the legend filter. *)
Definition filterNames (s : State) : list string :=
  legend_name <$> filterLegends (reactive s).

(** [max] is the maximum of the non-null values of the visible metrics of
    [dataset]: it is one of these values and no other exceeds it. *)
Definition isVisibleMax (s : State) (dataset : Dataset) (max : Q) : Prop :=
  (∃ metric, metric ∈ metrics dataset ∧ metric_name metric ∈ filterNames s ∧
             Some max ∈ percents metric) ∧
  (∀ metric v, metric ∈ metrics dataset → metric_name metric ∈ filterNames s →
               Some v ∈ percents metric → (v <= max)%Q).

(** How the point [p'] of a segment relates to the point [p] it replaces
    when the normalisation maximum goes from [maxBefore] to [maxAfter]: a
    null point stays null, a point keeps its x, and the y coordinates are
    those of one value [v], each for its own maximum where that maximum is
    not zero. *)
Definition rescaled (origin maxBefore maxAfter : Q) (p p' : PointCoord) : Prop :=
  match p, p' with
  | NullCoord, NullCoord => True
  | PCoord c, PCoord c' =>
      coord_x c' = coord_x c ∧
      ∃ v : Q,
        (¬ (maxBefore == 0)%Q →
         coord_y c = (origin - ((v / maxBefore) * 100 / 100) * origin)%Q) ∧
        (¬ (maxAfter == 0)%Q →
         coord_y c' = (origin - ((v / maxAfter) * 100 / 100) * origin)%Q)
  | _, _ => False
  end.

(** ** A sample chart

    Three legends and two datasets with the numeric identifiers 1 and 2, each
    with two series over three months.  [sampleState] is the store once the chart is mounted and
    measured (column centres at x = 50, 150, 250, axis origin 200) with the
    pointer over the second column. *)
Definition sampleLegends : list Legend :=
  [ {| legend_color := "#1f77b4"; legend_name := "A" |};
    {| legend_color := "#ff7f0e"; legend_name := "B" |};
    {| legend_color := "#2ca02c"; legend_name := "C" |} ].

Definition metricA : Metric :=
  {| metric_id := None; metric_name := "A";
     percents := [Some 10%Q; None; Some 5%Q] |}.

Definition metricB : Metric :=
  {| metric_id := None; metric_name := "B";
     percents := [Some 20%Q; Some 4%Q; None] |}.

Definition sampleDataset : Dataset :=
  {| dataset_id := IdNum 1; dataset_name := "flights";
     metrics := [metricA; metricB] |}.

Definition otherDataset : Dataset :=
  {| dataset_id := IdNum 2; dataset_name := "hours";
     metrics :=
       [ {| metric_id := None; metric_name := "A";
            percents := [Some 3%Q; Some 7%Q; None] |};
         {| metric_id := None; metric_name := "D";
            percents := [Some 90%Q; Some 80%Q; Some 70%Q] |} ] |}.

Definition sampleValue : InitialValue :=
  {| columns := 3;
     columnLabels := ["Jan"; "Feb"; "Mar"];
     legends := sampleLegends;
     datasetLabel := "";
     datasets := [sampleDataset; otherDataset] |}.

Definition sampleInit : State :=
  {| initialValue := sampleValue;
     columnWidth := None;
     reactive :=
       {| axisYOrigin := None;
          columnsCoords := None;
          mouseCoords := {| coord_x := (-1)%Q; coord_y := (-1)%Q |};
          hoveredSegment := None;
          highlightSegment := None;
          filterIdDataset := IdNum 1;
          filterLegends := sampleLegends |} |}.

Definition sampleColumns : list Coord :=
  [ {| coord_x := 50%Q; coord_y := 100%Q |};
    {| coord_x := 150%Q; coord_y := 100%Q |};
    {| coord_x := 250%Q; coord_y := 100%Q |} ].

Definition sampleState : State :=
  updateHoveredSegment (Some {| hovered_id := 1; hovered_name := "Feb" |})
    (updateAxisYOrigin (Some 200%Q)
       (updateColumnsCoords (Some sampleColumns) sampleInit)).

(** The segments of [sampleState], as [segments] computes them. *)
Definition sampleSegments : list Segment :=
  Eval vm_compute in
    match segments sampleState with
    | Ok (Some segs) => segs
    | _ => []
    end.

(** The y coordinates of the points of the segments called [name], or [None]
    where a point is the null point. *)
Definition yCoordsOf (r : Result (option (list Segment))) (name : string)
  : list (list (option Q)) :=
  match r with
  | Ok (Some segs) =>
      (λ sg, (λ p, match p with
                    | PCoord c => Some (coord_y c)
                    | NullCoord => None
                    end) <$> pointCoords sg)
        <$> filter (λ sg, segment_name sg = name) segs
  | _ => []
  end.

(** A run of legend toggles, first to last. *)
Definition toggles (names : list string) (s : State) : State :=
  foldl (λ s name, updateFilterLegend name s) s names.

(** A chart whose legends list names the same legend twice. *)
Definition repeatedLegendValue : InitialValue :=
  {| columns := 3;
     columnLabels := ["Jan"; "Feb"; "Mar"];
     legends := [ {| legend_color := "#1f77b4"; legend_name := "A" |};
                  {| legend_color := "#1f77b4"; legend_name := "A" |} ];
     datasetLabel := "";
     datasets := [sampleDataset] |}.

(** ** Layout measurement ([useElementCoords], [useElementBounds], [useIsMouseInside]) *)

(** The rectangle [getBoundingClientRect()] returns.  Its [left] and [top]
    are the ones the DOM derives: the smaller of [x] and [x + width], of [y]
    and [y + height]. *)
Record ClientRect : Type := { cr_x : Q; cr_y : Q; cr_width : Q; cr_height : Q }.

Definition cr_left (r : ClientRect) : Q :=
  if Qle_bool (cr_x r) (cr_x r + cr_width r) then cr_x r
  else (cr_x r + cr_width r)%Q.

Definition cr_top (r : ClientRect) : Q :=
  if Qle_bool (cr_y r) (cr_y r + cr_height r) then cr_y r
  else (cr_y r + cr_height r)%Q.

Record Bounds : Type := { b_top : Q; b_left : Q; b_bottom : Q; b_right : Q }.

Definition useElementBounds (rectContainer rectElement : ClientRect) : Bounds :=
  let left := (cr_left rectElement - cr_left rectContainer)%Q in
  let right := (left + cr_width rectElement)%Q in
  let top := (cr_top rectElement - cr_top rectContainer)%Q in
  let bottom := (top + cr_height rectElement)%Q in
  {| b_top := top; b_left := left; b_bottom := bottom; b_right := right |}.

Definition useElementCoords (rectContainer rectElement : ClientRect)
    (centerElement : bool) : Coord :=
  let coordX := (cr_x rectElement - cr_x rectContainer)%Q in
  let coordY := (cr_y rectElement - cr_y rectContainer)%Q in
  if centerElement then
    {| coord_x := (coordX + cr_width rectElement / 2)%Q;
       coord_y := (coordY + cr_height rectElement / 2)%Q |}
  else {| coord_x := coordX; coord_y := coordY |}.

Definition useIsMouseInside (mouseCoords : Coord) (bounds : Bounds) : bool :=
  let mouseX := coord_x mouseCoords in
  let mouseY := coord_y mouseCoords in
  Qle_bool (b_left bounds) mouseX && Qle_bool mouseX (b_right bounds)
  && Qle_bool (b_top bounds) mouseY && Qle_bool mouseY (b_bottom bounds).

(** ** The columns component ([ChartLinesColumns], [ChartLinesColumn]) *)

(** [setColumnsCoords]: nothing happens until the container and the columns
    are mounted ([None]); then every column is measured at its centre. *)
Definition setColumnsCoords (columnsContainer : option ClientRect)
    (columns : option (list ClientRect)) (s : State) : State :=
  match columnsContainer, columns with
  | Some container, Some columns =>
      updateColumnsCoords
        (Some ((λ column, useElementCoords container column true) <$> columns)) s
  | _, _ => s
  end.

(** [toggleActive] of one column, on the flag [isActive] of that column; the
    result is the flag afterwards.  Reading [state.computed.segments] runs
    [segments] and so may raise. *)
Definition toggleActive (column parentNode : option ClientRect) (s : State)
    (isActive : bool) : Result bool :=
  match column, parentNode with
  | Some column, Some parentNode =>
      segs ← segments s;
      match segs with
      | None | Some [] => Ok isActive
      | Some (_ :: _) =>
          let elementBounds := useElementBounds parentNode column in
          let isInside := useIsMouseInside (mouseCoords (reactive s)) elementBounds in
          if isInside then (if negb isActive then Ok true else Ok isActive)
          else Ok false
      end
  | _, _ => Ok isActive
  end.

(** [handleMouseLeave] of the chart: [resetMouseCoordinates(); resetHoveredSegment()]. *)
Definition handleMouseLeave (s : State) : State :=
  resetHoveredSegment (resetMouseCoords s).

(** ** The tooltip component *)

(** [positionX], as the pixel offset it writes into [--x-offset]; [None] is
    the [undefined] of the early return.  [tooltipRect] is the bounding
    rectangle of the tooltip element, [None] while it is not rendered.
    [!state.columnWidth] holds for [null] and for 0. *)
Definition positionX (tooltipRect : option ClientRect) (s : State)
  : Result (option Q) :=
  match tooltipRect with
  | None => Ok None
  | Some rectTooltip =>
      t ← tooltip s;
      match t, columnWidth s with
      | Some t, Some columnWidth =>
          if Qeq_bool columnWidth 0 then Ok None
          else
            match tooltip_position t with
            | None => Throw TypeError
            | Some position =>
                let left := (coord_x position - cr_width rectTooltip - columnWidth)%Q in
                let right := (coord_x position + columnWidth)%Q in
                let isOutOfBoundsLeft := negb (Qle_bool 0 left) in
                Ok (Some (if isOutOfBoundsLeft then right else left))
            end
      | _, _ => Ok None
      end
  end.

(** ** The legends and filter components *)

(** What [ChartLinesLegends] renders: the legend items, and the count of the
    "+n" item when there is one. *)
Definition legendsView (s : State) : list Legend * option nat :=
  let filterLegends := filterLegends (reactive s) in
  if (length filterLegends <? 11)%nat then (filterLegends, None)
  else (take 11 filterLegends,
        Some (length (drop 11 (take (length filterLegends) filterLegends)))).

(** The [checked] attribute the default filter gives the checkbox of legend
    number [i]: [i <= 5 ? true : false]. *)
Definition defaultChecked (i : nat) : bool := (i <=? 5)%nat.

(** ** [paints] *)

Definition paints (value : Q) : string :=
  if Qle_bool 75 value then "bg-[#B0DA86]"
  else if Qle_bool 50 value && Qle_bool value 74 then "bg-[#D7EDC2]"
  else if Qle_bool 25 value && Qle_bool value 49 then "bg-[#FFE2E2]"
  else "bg-[#F59E9E]".

(** ** Vocabulary of the further statements *)

(** The calls of a run that invoked the wrapped function, given the flags
    the run returned. *)
Definition passed {A : Type} (flags : list bool) (calls : list A) : list A :=
  (filter (λ fc : bool * A, fc.1 = true) (zip flags calls)).*2.

(** The legend filter holds every legend whose name it contains. *)
Definition nameClosed (s : State) : Prop :=
  filterLegends (reactive s)
  = filter (λ legend, legend_name legend ∈ filterNames s) (legends (initialValue s)).
(** * Properties *)

(** ** Arrays *)

Lemma mapi_from_lookup {A B : Type} (f : A → nat → Result B) l j0 bs :
  mapi_from f j0 l = Ok bs →
  length bs = length l ∧
  ∀ j a, l !! j = Some a → ∃ b, bs !! j = Some b ∧ f a (j0 + j)%nat = Ok b.
Proof.
  revert j0 bs. induction l as [|a l IH]; intros j0 bs; simpl.
  - intros [= <-]. split; [done|]. intros j a Hj. by rewrite lookup_nil in Hj.
  - destruct (f a j0) as [b|e] eqn:Hf; simpl; [|done].
    destruct (mapi_from f (S j0) l) as [bs'|e] eqn:Hrec; simpl; [|done].
    intros [= <-]. destruct (IH _ _ Hrec) as [Hlen Hall].
    split; [simpl; by rewrite Hlen|].
    intros [|j] a' Hj; simpl in *.
    + injection Hj as <-. exists b. by rewrite Nat.add_0_r.
    + destruct (Hall j a' Hj) as (b' & ? & ?). exists b'.
      by rewrite Nat.add_succ_r.
Qed.

Lemma mapi_from_ext {A B : Type} (f g : A → nat → Result B) l j0 :
  (∀ a j, f a j = g a j) → mapi_from f j0 l = mapi_from g j0 l.
Proof.
  intros Hfg. revert j0. induction l as [|a l IH]; intros j0; simpl; [done|].
  by rewrite Hfg, IH.
Qed.

Lemma mkPathCoords_lookup pc k p :
  mkPathCoords pc !! k = Some p →
  pc !! k = Some (path_start p) ∧ pc !! (k + 1)%nat = Some (path_end p).
Proof.
  unfold mkPathCoords. rewrite list_lookup_imap.
  destruct (take (length pc - 1) pc !! k) as [a|] eqn:Hk; simpl; [|done].
  intros [= <-]; simpl.
  apply lookup_take_Some in Hk as [Hk Hlt].
  split; [done|].
  destruct (pc !! (k + 1)%nat) as [b|] eqn:Hb; [done|].
  apply lookup_ge_None in Hb. lia.
Qed.

Lemma mkPathCoords_length pc : length (mkPathCoords pc) = (length pc - 1)%nat.
Proof. unfold mkPathCoords. rewrite length_imap, length_take. lia. Qed.

(** ** The reducer of [segments] *)

(** The fold of [segments] succeeds exactly when every visible metric yields
    a segment, and then returns these segments in metric order. *)
Lemma segments_fold s cols dataset (l : list (nat * Metric)) segs :
  foldl (segmentsReducer s cols dataset) (Ok []) l = Ok segs ↔
  Forall2 (λ im sg, mkSegment s cols dataset im.1 im.2 = Ok sg)
          (filter (λ im, isMetricFiltered s (metric_name im.2)) l) segs.
Proof.
  revert segs. induction l as [|x l IH] using rev_ind; intros segs.
  - simpl. split.
    + intros [= <-]. constructor.
    + intros H. by inversion H.
  - rewrite foldl_snoc, filter_app. unfold segmentsReducer at 1.
    destruct (foldl (segmentsReducer s cols dataset) (Ok []) l) as [acc|e]; simpl.
    + assert (Hacc := proj1 (IH acc) eq_refl).
      assert (Huniq : ∀ k, Forall2 (λ im sg, mkSegment s cols dataset im.1 im.2 = Ok sg)
                (filter (λ im, isMetricFiltered s (metric_name im.2)) l) k → k = acc).
      { intros k Hk. apply IH in Hk. congruence. }
      destruct (isMetricFiltered s (metric_name x.2)) eqn:Hvis; simpl.
      * rewrite filter_cons_True by (by rewrite Hvis). rewrite filter_nil.

        destruct (mkSegment s cols dataset x.1 x.2) as [sg|e] eqn:Hsg; simpl.
        -- split.
           ++ intros [= <-]. apply Forall2_app; [done|]. by repeat constructor.
           ++ intros (k1 & k2 & Hk1 & Hk2 & ->)%Forall2_app_inv_l.
              apply Huniq in Hk1 as ->.
              inversion Hk2 as [|? sg' ? ? Hsg' Hnil]; subst.
              inversion Hnil; subst. congruence.
        -- split; [done|].
           intros (k1 & k2 & Hk1 & Hk2 & ->)%Forall2_app_inv_l.
           inversion Hk2; subst. congruence.
      * rewrite filter_cons_False by (simpl; rewrite Hvis; tauto). rewrite filter_nil, app_nil_r.
        split.
        -- by intros [= <-].
        -- intros Hk. by rewrite (Huniq _ Hk).
    + split; [done|].
      intros (k1 & k2 & Hk1 & _ & ->)%Forall2_app_inv_l.
      apply IH in Hk1. done.
Qed.

Lemma segments_Some s segs :
  segments s = Ok (Some segs) ↔
  ∃ cols dataset,
    columnsCoords (reactive s) = Some cols ∧
    datasetsMap (initialValue s) !! filterIdDataset (reactive s) = Some dataset ∧
    Forall2 (λ im sg, mkSegment s cols dataset im.1 im.2 = Ok sg)
            (filter (λ im, isMetricFiltered s (metric_name im.2))
                    (imap pair (metrics dataset))) segs.
Proof.
  unfold segments.
  destruct (columnsCoords (reactive s)) as [cols|]; [|split; [done|by intros (?&?&?&_)]].
  destruct (datasetsMap (initialValue s) !! filterIdDataset (reactive s)) as [dataset|];
    [|split; [done|by intros (?&?&_&?&_)]].
  split.
  - intros H. exists cols, dataset. split_and!; [done..|].
    apply segments_fold.
    destruct (foldl _ _ _); simpl in *; congruence.
  - intros (? & ? & [= <-] & [= <-] & H). apply segments_fold in H. by rewrite H.
Qed.

(** ** Visible metrics and their segments *)

Lemma isMetricFiltered_spec s name :
  isMetricFiltered s name ↔ name ∈ filterNames s.
Proof.
  unfold isMetricFiltered, filterNames. rewrite Is_true_true, existsb_exists.
  rewrite list_elem_of_fmap. split.
  - intros (l & Hl%list_elem_of_In & Heq%bool_decide_eq_true). by exists l.
  - intros (l & -> & Hl). exists l. split; [by apply list_elem_of_In|].
    by apply bool_decide_eq_true.
Qed.

Lemma filter_lookup_index {A : Type} (P : A → Prop) `{!∀ x, Decision (P x)}
    (l : list A) i x :
  l !! i = Some x → P x →
  filter P l !! length (filter P (take i l)) = Some x.
Proof.
  intros Hi HP.
  assert (filter P l = filter P (take i l) ++ x :: filter P (drop (S i) l)) as ->.
  { rewrite <- (filter_cons_True P x) by done. rewrite <- filter_app.
    by rewrite take_drop_middle. }
  by rewrite lookup_app_r, Nat.sub_diag by lia.
Qed.

Lemma filter_imap_pair_length {A : Type} (P : A → Prop) `{!∀ x, Decision (P x)}
    (f : nat → nat) (l : list A) :
  length (filter (λ im : nat * A, P im.2) (imap (λ k a, (f k, a)) l))
  = length (filter P l).
Proof.
  revert f. induction l as [|a l IH]; intros f; [done|].
  rewrite imap_cons. destruct (decide (P a)) as [Ha|Ha].
  - rewrite !filter_cons_True by done. simpl. f_equal. apply (IH (f ∘ S)).
  - rewrite !filter_cons_False by done. apply (IH (f ∘ S)).
Qed.

Lemma take_imap {A B : Type} (f : nat → A → B) (l : list A) n :
  take n (imap f l) = imap f (take n l).
Proof.
  revert f n. induction l as [|a l IH]; intros f [|n]; simpl; try done.
  f_equal. apply IH.
Qed.

Lemma mkSegment_Ok s cols dataset i metric sg :
  mkSegment s cols dataset i metric = Ok sg →
  Array_map (pointCoord s cols) (percents metric) = Ok (pointCoords sg) ∧
  pathCoords sg = mkPathCoords (pointCoords sg) ∧
  segment_name sg = metric_name metric ∧
  segment_color sg = legendColor s (metric_name metric).
Proof.
  unfold mkSegment.
  destruct (Array_map (pointCoord s cols) (percents metric)) as [pc|e]; simpl; [|done].
  by intros [= <-].
Qed.

Lemma mkSegment_id s cols dataset i metric sg :
  mkSegment s cols dataset i metric = Ok sg →
  segment_id sg
  = default (IdStr (pretty i +:+ "-" +:+ Id_toString (dataset_id dataset)
                      +:+ "-" +:+ dataset_name dataset))
            (metric_id metric).
Proof.
  unfold mkSegment.
  destruct (Array_map (pointCoord s cols) (percents metric)) as [pc|e]; simpl; [|done].
  by intros [= <-].
Qed.

Lemma mapi_from_Ok_iff {A B : Type} (f : A → nat → Result B) l j0 :
  (∃ bs, mapi_from f j0 l = Ok bs) ↔
  ∀ j a, l !! j = Some a → ∃ b, f a (j0 + j)%nat = Ok b.
Proof.
  split.
  - intros [bs Hbs] j a Hj.
    destruct (proj2 (mapi_from_lookup _ _ _ _ Hbs) j a Hj) as (b & _ & Hb). by exists b.
  - revert j0. induction l as [|a l IH]; intros j0 Hall; simpl; [by eexists|].
    destruct (Hall 0%nat a eq_refl) as [b Hb]. rewrite Nat.add_0_r in Hb. rewrite Hb. simpl.
    destruct (IH (S j0)) as [bs Hbs].
    { intros j a' Hj. rewrite Nat.add_succ_l, <- Nat.add_succ_r. by apply (Hall (S j)). }
    rewrite Hbs. simpl. by eexists.
Qed.

Lemma pointCoord_Ok_iff s cols percent j :
  (∃ p, pointCoord s cols percent j = Ok p) ↔
  (percent = None ∨ (j < length cols)%nat).
Proof.
  unfold pointCoord. destruct percent as [v|]; [|split; [by left|by eexists]].
  destruct (cols !! j) as [col|] eqn:Hcol.
  - apply lookup_lt_Some in Hcol. split; [by right|by eexists].
  - apply lookup_ge_None in Hcol. split; [by intros [? ?]|]. intros [?|?]; [done|lia].
Qed.

Lemma mkSegment_Ok_iff s cols dataset i metric :
  (∃ sg, mkSegment s cols dataset i metric = Ok sg) ↔
  ∀ j v, percents metric !! j = Some (Some v) → (j < length cols)%nat.
Proof.
  unfold mkSegment, Array_map. split.
  - intros [sg Hsg] j v Hj.
    destruct (mapi_from (pointCoord s cols) 0 (percents metric)) as [pc|] eqn:Hpc; [|done].
    destruct (proj1 (mapi_from_Ok_iff _ _ _) (ex_intro _ _ Hpc) j _ Hj) as [p Hp].
    destruct (proj1 (pointCoord_Ok_iff _ _ _ _) (ex_intro _ _ Hp)); [done|]. done.
  - intros Hall.
    destruct (proj2 (mapi_from_Ok_iff (pointCoord s cols) (percents metric) 0)) as [pc Hpc].
    { intros j [v|] Hj; apply pointCoord_Ok_iff; [right|by left]. by eapply Hall. }
    rewrite Hpc. simpl. by eexists.
Qed.

Lemma Forall2_exists {A B : Type} (R : A → B → Prop) (l : list A) :
  (∃ k, Forall2 R l k) ↔ ∀ x, x ∈ l → ∃ y, R x y.
Proof.
  split.
  - intros [k Hk] x Hx. apply list_elem_of_lookup in Hx as [i Hi].
    destruct (Forall2_lookup_l _ _ _ _ _ Hk Hi) as (y & _ & Hy). by exists y.
  - induction l as [|x l IH]; intros Hall; [exists []; constructor|].
    destruct (Hall x) as [y Hy]; [apply list_elem_of_here|].
    destruct IH as [k Hk]; [intros; apply Hall; by apply list_elem_of_further|].
    exists (y :: k). by constructor.
Qed.

Lemma elem_of_imap_pair {A : Type} (l : list A) (i : nat) (a : A) :
  (i, a) ∈ imap pair l ↔ l !! i = Some a.
Proof.
  rewrite elem_of_lookup_imap. split.
  - by intros (? & ? & [= -> ->] & ?).
  - intros H. by exists i, a.
Qed.

(** Every visible metric of the active dataset has its segment, at the
    position [segmentIndex] gives. *)
Lemma segments_of_metric s segs cols dataset i metric :
  segments s = Ok (Some segs) →
  columnsCoords (reactive s) = Some cols →
  datasetsMap (initialValue s) !! filterIdDataset (reactive s) = Some dataset →
  metrics dataset !! i = Some metric →
  isMetricFiltered s (metric_name metric) →
  ∃ sg, segs !! segmentIndex s dataset i = Some sg ∧
        mkSegment s cols dataset i metric = Ok sg.
Proof.
  intros (cols' & dataset' & Hc & Hd & Hall)%segments_Some Hcols Hds Hi Hvis.
  rewrite Hc in Hcols. injection Hcols as ->.
  rewrite Hd in Hds. injection Hds as ->.
  assert (Him : imap pair (metrics dataset) !! i = Some (i, metric)).
  { by rewrite list_lookup_imap, Hi. }
  pose proof (filter_lookup_index
    (λ im : nat * Metric, isMetricFiltered s (metric_name im.2)) _ _ _ Him Hvis) as Hk.
  rewrite take_imap in Hk.
  assert (Hlen : length (filter (λ im : nat * Metric, isMetricFiltered s (metric_name im.2))
                                (imap pair (take i (metrics dataset))))
                 = segmentIndex s dataset i).
  { exact (filter_imap_pair_length
             (λ metric, isMetricFiltered s (metric_name metric)) id _). }
  rewrite Hlen in Hk.
  destruct (Forall2_lookup_l _ _ _ _ _ Hall Hk) as (sg & Hsg & Hmk).
  by exists sg.
Qed.

(** ** The normalisation maximum *)

Lemma Math_max_elem v vs : Math_max v vs ∈ v :: vs.
Proof.
  unfold Math_max. revert v. induction vs as [|b vs IH]; intros v; simpl.
  - apply list_elem_of_here.
  - specialize (IH (if Qle_bool v b then b else v)).
    apply elem_of_cons in IH as [->|IH].
    + destruct (Qle_bool v b); [apply list_elem_of_further|]; apply list_elem_of_here.
    + by do 2 apply list_elem_of_further.
Qed.

Lemma Math_max_ub v vs x : x ∈ v :: vs → (x <= Math_max v vs)%Q.
Proof.
  unfold Math_max. revert v x. induction vs as [|b vs IH]; intros v x Hx; simpl.
  - apply list_elem_of_singleton in Hx as ->. apply Qle_refl.
  - assert (Hv : (v <= if Qle_bool v b then b else v)%Q).
    { destruct (Qle_bool v b) eqn:E; [by apply Qle_bool_iff|apply Qle_refl]. }
    assert (Hb : (b <= if Qle_bool v b then b else v)%Q).
    { destruct (Qle_bool v b) eqn:E; [apply Qle_refl|].
      apply Qlt_le_weak, Qnot_le_lt. intros H%Qle_bool_iff. congruence. }
    pose proof (IH (if Qle_bool v b then b else v) _ (list_elem_of_here _ _)) as Hm.
    apply elem_of_cons in Hx as [->|Hx]; [by eapply Qle_trans|].
    apply elem_of_cons in Hx as [->|Hx]; [by eapply Qle_trans|].
    apply IH. by apply list_elem_of_further.
Qed.

Lemma elem_of_selectedValues s dataset v :
  v ∈ selectedValues s dataset ↔
  ∃ metric, metric ∈ metrics dataset ∧ metric_name metric ∈ filterNames s ∧
            Some v ∈ percents metric.
Proof.
  unfold selectedValues. rewrite list_elem_of_bind. split.
  - intros (metric & Hv & Hm). exists metric. split; [done|].
    fold (isMetricFiltered s (metric_name metric)) in Hv.
    destruct (isMetricFiltered s (metric_name metric)) eqn:Hvis;
      [|by apply elem_of_nil in Hv].
    split; [apply isMetricFiltered_spec; by rewrite Hvis|].
    unfold nonNull in Hv. apply list_elem_of_omap in Hv as (o & Ho & Heq).
    simpl in Heq. by subst.
  - intros (metric & Hm & Hname & Hv). exists metric. split; [|done].
    fold (isMetricFiltered s (metric_name metric)).
    apply isMetricFiltered_spec, Is_true_true in Hname. rewrite Hname.
    unfold nonNull. apply list_elem_of_omap. by exists (Some v).
Qed.

Lemma maxValue_isVisibleMax s dataset :
  datasetsMap (initialValue s) !! filterIdDataset (reactive s) = Some dataset →
  selectedValues s dataset ≠ [] →
  isVisibleMax s dataset (maxValue s).
Proof.
  intros Hds Hne. unfold maxValue. rewrite Hds.
  destruct (selectedValues s dataset) as [|v vs] eqn:Hvals; [done|].
  split.
  - apply elem_of_selectedValues. rewrite Hvals. apply Math_max_elem.
  - intros metric x Hm Hname Hx. apply Math_max_ub. rewrite <- Hvals.
    apply elem_of_selectedValues. by exists metric.
Qed.

(** ** Point and path coordinates *)



(** C3. A null entry at index [j] of a visible metric gives the point
    [{ x: null, y: null }] at index [j] of its segment.  Path number [k] joins
    the points [k] and [k + 1] and nothing else, so the only paths touching
    index [j] are number [j - 1], whose end is the null point, and number [j],
    whose start is the null point: no path joins the points [j - 1] and
    [j + 1]. *)
Theorem null_percent_breaks_path s segs cols dataset i metric j :
  segments s = Ok (Some segs) →
  columnsCoords (reactive s) = Some cols →
  datasetsMap (initialValue s) !! filterIdDataset (reactive s) = Some dataset →
  metrics dataset !! i = Some metric →
  isMetricFiltered s (metric_name metric) →
  percents metric !! j = Some None →
  ∃ sg,
    segs !! segmentIndex s dataset i = Some sg ∧
    length (pointCoords sg) = length (percents metric) ∧
    length (pathCoords sg) = (length (percents metric) - 1)%nat ∧
    pointCoords sg !! j = Some NullCoord ∧
    (∀ k p, pathCoords sg !! k = Some p →
            pointCoords sg !! k = Some (path_start p) ∧
            pointCoords sg !! (k + 1)%nat = Some (path_end p)) ∧
    (∀ p, pathCoords sg !! j = Some p → path_start p = NullCoord) ∧
    (∀ k p, (k + 1)%nat = j → pathCoords sg !! k = Some p → path_end p = NullCoord).
Proof.
  intros Hsegs Hcols Hds Hi Hvis Hnull.
  destruct (segments_of_metric _ _ _ _ _ _ Hsegs Hcols Hds Hi Hvis) as (sg & Hsg & Hmk).
  apply mkSegment_Ok in Hmk as (Hpc & Hpath & _ & _).
  apply mapi_from_lookup in Hpc as [Hlen Hpc].
  destruct (Hpc _ _ Hnull) as (p & Hp & Hpoint). simpl in Hpoint.
  injection Hpoint as <-.
  exists sg. split_and!; try done.
  - by rewrite Hpath, mkPathCoords_length, Hlen.
  - intros k p. rewrite Hpath. apply mkPathCoords_lookup.
  - intros p. rewrite Hpath. intros [Hstart _]%mkPathCoords_lookup. congruence.
  - intros k p <-. rewrite Hpath. intros [_ Hend]%mkPathCoords_lookup. congruence.
Qed.

Lemma null_percent_breaks_path_witness :
  ∃ sg,
    sampleSegments !! segmentIndex sampleState sampleDataset 0 = Some sg ∧
    length (pointCoords sg) = 3%nat ∧
    length (pathCoords sg) = 2%nat ∧
    pointCoords sg !! 1%nat = Some NullCoord ∧
    (∀ k p, pathCoords sg !! k = Some p →
            pointCoords sg !! k = Some (path_start p) ∧
            pointCoords sg !! (k + 1)%nat = Some (path_end p)) ∧
    (∀ p, pathCoords sg !! 1%nat = Some p → path_start p = NullCoord) ∧
    (∀ k p, (k + 1)%nat = 1%nat → pathCoords sg !! k = Some p →
            path_end p = NullCoord).
Proof.
  apply (null_percent_breaks_path sampleState sampleSegments sampleColumns
           sampleDataset 0 metricA 1).
  - vm_compute. reflexivity.
  - reflexivity.
  - vm_compute. reflexivity.
  - reflexivity.
  - vm_compute. exact I.
  - reflexivity.
Defined.

(** ** Reachable stores *)

Lemma reachable_invariant iv s :
  reachable iv s →
  initialValue s = iv ∧ filterLegends (reactive s) `sublist_of` legends iv.
Proof.
  induction 1 as [s Hinit|a s _ [IHiv IHsub]].
  - unfold createState in Hinit. destruct (datasets iv); [done|].
    injection Hinit as <-. simpl. split; [done|apply sublist_take].
  - destruct a; simpl; (split; [done|]); try done.
    rewrite IHiv. apply sublist_filter.
Qed.

Lemma reachable_filterNames iv s name :
  reachable iv s → name ∈ filterNames s →
  ∃ legend, legend ∈ legends (initialValue s) ∧ legend_name legend = name.
Proof.
  intros [-> Hsub]%reachable_invariant.
  unfold filterNames. intros (legend & -> & Hl)%list_elem_of_fmap.
  exists legend. split; [|done]. by eapply elem_of_sublist.
Qed.

(** The sample store is the initial store after three actions. *)
Lemma sampleState_reachable : reachable sampleValue sampleState.
Proof.
  apply (reachable_step _ (UpdateHoveredSegment _)).
  apply (reachable_step _ (UpdateAxisYOrigin _)).
  apply (reachable_step _ (UpdateColumnsCoords _)).
  apply reachable_init. reflexivity.
Qed.

(** ** Toggling a legend *)

Lemma elem_of_toggledNames name s x :
  x ∈ toggledNames name s ↔
  if decide (name ∈ filterNames s) then x ∈ filterNames s ∧ x ≠ name
  else x ∈ filterNames s ∨ x = name.
Proof.
  unfold toggledNames, filterNames.
  destruct (decide (name ∈ legend_name <$> filterLegends (reactive s))) as [Hin|Hin].
  - rewrite decide_True by (by apply elem_of_list_to_set).
    rewrite elem_of_difference, elem_of_list_to_set, elem_of_singleton. done.
  - rewrite decide_False by (by rewrite elem_of_list_to_set).
    rewrite elem_of_union, elem_of_list_to_set, elem_of_singleton. done.
Qed.

Lemma filterNames_updateFilterLegend name s x :
  x ∈ filterNames (updateFilterLegend name s) ↔
  (∃ legend, legend ∈ legends (initialValue s) ∧ legend_name legend = x) ∧
  x ∈ toggledNames name s.
Proof.
  unfold filterNames at 1. simpl. rewrite list_elem_of_fmap. split.
  - intros (legend & -> & [Hin Hl]%list_elem_of_filter). split; [by exists legend|done].
  - intros [(legend & Hl & <-) Hin]. exists legend. split; [done|].
    by apply list_elem_of_filter.
Qed.

Lemma isMetricFiltered_toggle_off iv s name x :
  reachable iv s → name ∈ filterNames s →
  isMetricFiltered (updateFilterLegend name s) x ↔
  isMetricFiltered s x ∧ x ≠ name.
Proof.
  intros Hreach Hname.
  rewrite !isMetricFiltered_spec, filterNames_updateFilterLegend, elem_of_toggledNames.
  rewrite decide_True by done. split; [tauto|].
  intros [Hx Hne]. split; [|done]. by eapply reachable_filterNames.
Qed.

Lemma pointCoord_toggle name s cols percent j :
  maxValue (updateFilterLegend name s) = maxValue s →
  pointCoord (updateFilterLegend name s) cols percent j = pointCoord s cols percent j.
Proof. intros Hmax. unfold pointCoord. by rewrite Hmax. Qed.

Lemma mkSegment_toggle name s cols dataset i metric :
  maxValue (updateFilterLegend name s) = maxValue s →
  mkSegment (updateFilterLegend name s) cols dataset i metric
  = mkSegment s cols dataset i metric.
Proof.
  intros Hmax. unfold mkSegment, Array_map.
  rewrite (mapi_from_ext _ (pointCoord s cols)); [done|].
  intros. by apply pointCoord_toggle.
Qed.

Lemma Forall2_filter_both {A B : Type} (R : A → B → Prop)
    (P : A → Prop) (Q : B → Prop)
    `{!∀ x, Decision (P x)} `{!∀ y, Decision (Q y)} l k :
  (∀ x y, R x y → (P x ↔ Q y)) →
  Forall2 R l k → Forall2 R (filter P l) (filter Q k).
Proof.
  intros HPQ. induction 1 as [|x y l k Hxy _ IH]; [constructor|].
  destruct (decide (P x)) as [HP|HP].
  - rewrite !filter_cons_True by (done || by eapply HPQ). by constructor.
  - rewrite !filter_cons_False by (done || by rewrite <- HPQ). done.
Qed.

Lemma segments_None s :
  segments s = Ok None ↔
  columnsCoords (reactive s) = None ∨
  datasetsMap (initialValue s) !! filterIdDataset (reactive s) = None.
Proof.
  unfold segments.
  destruct (columnsCoords (reactive s)); [|by split; [left|]].
  destruct (datasetsMap (initialValue s) !! filterIdDataset (reactive s));
    [|by split; [right|]].
  destruct (foldl _ _ _); simpl; split; try done; by intros [|].
Qed.

(** With the maximum unchanged, toggling a legend off only takes the
    segments of that name away. *)
Lemma segments_toggle_same_max iv s name r :
  reachable iv s →
  name ∈ filterNames s →
  maxValue (updateFilterLegend name s) = maxValue s →
  segments s = Ok r →
  segments (updateFilterLegend name s)
  = Ok (filter (λ sg, segment_name sg ≠ name) <$> r).
Proof.
  intros Hreach Hname Hmax Hsegs. destruct r as [segs|]; simpl.
  - apply segments_Some in Hsegs as (cols & dataset & Hcols & Hds & Hall).
    apply segments_Some. exists cols, dataset. split_and!; [done..|].
    assert (Hfil :
      filter (λ im : nat * Metric,
                isMetricFiltered (updateFilterLegend name s) (metric_name im.2))
             (imap pair (metrics dataset))
      = filter (λ im : nat * Metric, metric_name im.2 ≠ name)
          (filter (λ im : nat * Metric, isMetricFiltered s (metric_name im.2))
                  (imap pair (metrics dataset)))).
    { rewrite list_filter_filter. apply list_filter_iff. intros im.
      rewrite (isMetricFiltered_toggle_off iv) by done. tauto. }
    rewrite Hfil.
    apply (Forall2_filter_both _ (λ im : nat * Metric, metric_name im.2 ≠ name)).
    + intros im sg (_ & _ & Hn & _)%mkSegment_Ok. by rewrite Hn.
    + eapply Forall2_impl; [exact Hall|]. intros im sg Hmk.
      by rewrite mkSegment_toggle.
  - apply segments_None. by apply segments_None in Hsegs.
Qed.

Lemma Forall2_join {A B C : Type} (R : A → B → Prop) (R' : A → C → Prop) l k k' :
  Forall2 R l k → Forall2 R' l k' →
  Forall2 (λ y y', ∃ x, R x y ∧ R' x y') k k'.
Proof.
  intros HR. revert k'. induction HR as [|x y l k Hxy _ IH]; intros k' HR'.
  - inversion HR'. constructor.
  - inversion HR' as [|? y' ? k'' Hxy' Hrest]; subst.
    constructor; [by exists x|by apply IH].
Qed.

(** The points of one metric, computed in two stores that agree on the axis
    origin. *)
Lemma pointCoords_rescaled s s' cols ps pc pc' :
  axisYOrigin (reactive s') = axisYOrigin (reactive s) →
  Array_map (pointCoord s cols) ps = Ok pc →
  Array_map (pointCoord s' cols) ps = Ok pc' →
  Forall2 (rescaled (default 0%Q (axisYOrigin (reactive s))) (maxValue s) (maxValue s'))
          pc pc'.
Proof.
  intros Horigin [Hlen Hpc]%mapi_from_lookup [Hlen' Hpc']%mapi_from_lookup.
  apply Forall2_same_length_lookup. split; [congruence|].
  intros j p p' Hp Hp'.
  destruct (ps !! j) as [percent|] eqn:Hj;
    [|apply lookup_ge_None in Hj; apply lookup_lt_Some in Hp; lia].
  destruct (Hpc _ _ Hj) as (q & Hq & Hpoint).
  destruct (Hpc' _ _ Hj) as (q' & Hq' & Hpoint').
  rewrite Hp in Hq. injection Hq as <-. rewrite Hp' in Hq'. injection Hq' as <-.
  simpl in Hpoint, Hpoint'. unfold pointCoord in Hpoint, Hpoint'.
  destruct percent as [v|]; [|by injection Hpoint as <-; injection Hpoint' as <-].
  destruct (cols !! j) as [col|]; [|done].
  injection Hpoint as <-. injection Hpoint' as <-. rewrite Horigin. simpl.
  split; [done|]. by exists v.
Qed.

(** C1 (as the code has it). In a store of a running chart, toggling off a
    legend name that is in the filter removes exactly the segments of the
    metrics with that name, whatever the values: [segments] stays null if it
    was null, and otherwise returns one segment for each segment of another
    name, in the same order, with the same identifier, name and color, the
    same null points and the same x of every point, and with the y of the
    same values normalised by the maximum of the series still visible
    (wherever a maximum is not zero).  The remaining segments, their
    [pointCoords] and [pathCoords] included, are exactly as before whenever
    the toggle leaves a non-zero [maxValue] unchanged. *)
Theorem toggle_off_removes_series iv s name :
  reachable iv s →
  name ∈ filterNames s →
  let s' := updateFilterLegend name s in
  (segments s = Ok None → segments s' = Ok None) ∧
  ∀ segs, segments s = Ok (Some segs) →
    ∃ segs',
      segments s' = Ok (Some segs') ∧
      Forall2 (λ sg sg',
                 segment_id sg' = segment_id sg ∧
                 segment_name sg' = segment_name sg ∧
                 segment_color sg' = segment_color sg ∧
                 Forall2 (rescaled (default 0%Q (axisYOrigin (reactive s)))
                                   (maxValue s) (maxValue s'))
                         (pointCoords sg) (pointCoords sg') ∧
                 pathCoords sg' = mkPathCoords (pointCoords sg'))
              (filter (λ sg, segment_name sg ≠ name) segs) segs' ∧
      (maxValue s' = maxValue s → ¬ (maxValue s == 0)%Q →
       segs' = filter (λ sg, segment_name sg ≠ name) segs).
Proof.
  intros Hreach Hname s'. split.
  - intros Hnone. apply segments_None. by apply segments_None in Hnone.
  - intros segs Hsegs.
    pose proof Hsegs as (cols & dataset & Hcols & Hds & Hall)%segments_Some.
    set (kept := filter (λ im : nat * Metric, metric_name im.2 ≠ name)
                   (filter (λ im : nat * Metric, isMetricFiltered s (metric_name im.2))
                           (imap pair (metrics dataset)))).
    assert (Hfil :
      filter (λ im : nat * Metric, isMetricFiltered s' (metric_name im.2))
             (imap pair (metrics dataset)) = kept).
    { unfold kept. rewrite list_filter_filter. apply list_filter_iff. intros im.
      unfold s'. rewrite (isMetricFiltered_toggle_off iv) by done. tauto. }
    assert (Hold : Forall2 (λ (im : nat * Metric) sg,
                              mkSegment s cols dataset im.1 im.2 = Ok sg)
                           kept (filter (λ sg, segment_name sg ≠ name) segs)).
    { apply (Forall2_filter_both _ (λ im : nat * Metric, metric_name im.2 ≠ name));
        [|done].
      intros im sg (_ & _ & Hn & _)%mkSegment_Ok. by rewrite Hn. }
    destruct (proj2 (Forall2_exists
      (λ (im : nat * Metric) sg, mkSegment s' cols dataset im.1 im.2 = Ok sg) kept))
      as [segs' Hnew].
    { intros im [j Hj]%list_elem_of_lookup.
      destruct (Forall2_lookup_l _ _ _ _ _ Hold Hj) as (sg & _ & Hsg).
      apply mkSegment_Ok_iff.
      by apply (proj1 (mkSegment_Ok_iff s cols dataset im.1 im.2)); exists sg. }
    exists segs'. split_and!.
    + apply segments_Some. exists cols, dataset. split_and!; [done..|]. by rewrite Hfil.
    + eapply Forall2_impl; [exact (Forall2_join _ _ _ _ _ Hold Hnew)|].
      intros sg sg' ([i metric] & Hsg & Hsg'). simpl in *.
      rewrite (mkSegment_id _ _ _ _ _ _ Hsg), (mkSegment_id _ _ _ _ _ _ Hsg').
      apply mkSegment_Ok in Hsg as (Hpc & _ & Hn & Hc).
      apply mkSegment_Ok in Hsg' as (Hpc' & Hpath' & Hn' & Hc').
      split_and!; [done|congruence|by rewrite Hc, Hc'| |done].
      by apply (pointCoords_rescaled s s' cols (percents metric)).
    + intros Hmax _.
      pose proof (segments_toggle_same_max iv s name _ Hreach Hname Hmax Hsegs) as Heq.
      assert (Hs' : segments s' = Ok (Some segs')).
      { apply segments_Some. exists cols, dataset. split_and!; [done..|]. by rewrite Hfil. }
      unfold s' in Hs'. rewrite Hs' in Heq. simpl in Heq. by injection Heq.
Qed.

Lemma toggle_off_removes_series_witness :
  ∃ segs',
    segments (updateFilterLegend "B" sampleState) = Ok (Some segs') ∧
    Forall2 (λ sg sg',
               segment_id sg' = segment_id sg ∧
               segment_name sg' = segment_name sg ∧
               segment_color sg' = segment_color sg ∧
               Forall2 (rescaled (default 0%Q (axisYOrigin (reactive sampleState)))
                                 (maxValue sampleState)
                                 (maxValue (updateFilterLegend "B" sampleState)))
                       (pointCoords sg) (pointCoords sg') ∧
               pathCoords sg' = mkPathCoords (pointCoords sg'))
            (filter (λ sg, segment_name sg ≠ "B") sampleSegments) segs' ∧
    (maxValue (updateFilterLegend "B" sampleState) = maxValue sampleState →
     ¬ (maxValue sampleState == 0)%Q →
     segs' = filter (λ sg, segment_name sg ≠ "B") sampleSegments).
Proof.
  apply (proj2 (toggle_off_removes_series sampleValue sampleState "B"
                  sampleState_reachable
                  ltac:(vm_compute; apply list_elem_of_further, list_elem_of_here))).
  vm_compute. reflexivity.
Defined.

(** The same at a toggle that leaves the maximum where it was. *)
Lemma toggle_off_same_maximum_example :
  segments (updateFilterLegend "A" sampleState)
  = Ok (Some (filter (λ sg, segment_name sg ≠ "A") sampleSegments)).
Proof.
  apply (segments_toggle_same_max sampleValue sampleState "A" (Some sampleSegments)).
  - exact sampleState_reachable.
  - vm_compute. apply list_elem_of_here.
  - vm_compute. reflexivity.
  - vm_compute. reflexivity.
Qed.

(** C1 (as stated) fails: in the sample chart the series A has the value 10
    in January and the series B the value 20.  With both visible the maximum
    is 20 and the January point of A is at y = 100; toggling B off makes the
    maximum 10 and moves that point to y = 0. *)
Lemma toggle_off_rescales_remaining :
  "B" ∈ filterNames sampleState ∧
  match yCoordsOf (segments sampleState) "A",
        yCoordsOf (segments (updateFilterLegend "B" sampleState)) "A" with
  | [Some y :: _], [Some y' :: _] => (y == 100)%Q ∧ (y' == 0)%Q
  | _, _ => False
  end.
Proof.
  split.
  - vm_compute. apply list_elem_of_further, list_elem_of_here.
  - vm_compute. split; reflexivity.
Qed.

(** ** Changing the dataset *)

(** C4. After [updateIdDataset id], with [id] the identifier of a dataset of
    the chart in which some visible metric has a value, the normalisation
    maximum is the maximum of the non-null values of exactly the metrics of
    that dataset whose names are in the legend filter, and the legend filter
    is the one from before the change. *)
Theorem updateIdDataset_maxValue s id dataset :
  datasetsMap (initialValue s) !! id = Some dataset →
  (∃ metric v, metric ∈ metrics dataset ∧ metric_name metric ∈ filterNames s ∧
               Some v ∈ percents metric) →
  filterLegends (reactive (updateIdDataset id s)) = filterLegends (reactive s) ∧
  isVisibleMax s dataset (maxValue (updateIdDataset id s)).
Proof.
  intros Hds (metric & v & Hm & Hname & Hv). split; [done|].
  apply (maxValue_isVisibleMax (updateIdDataset id s) dataset); [done|].
  intros Hnil.
  assert (Hin : v ∈ selectedValues (updateIdDataset id s) dataset).
  { apply elem_of_selectedValues. by exists metric. }
  rewrite Hnil in Hin. by apply elem_of_nil in Hin.
Qed.

Lemma updateIdDataset_maxValue_witness :
  maxValue sampleState = 20%Q ∧
  maxValue (updateIdDataset (IdNum 2) sampleState) = 7%Q ∧
  filterLegends (reactive (updateIdDataset (IdNum 2) sampleState))
  = filterLegends (reactive sampleState) ∧
  isVisibleMax sampleState otherDataset
    (maxValue (updateIdDataset (IdNum 2) sampleState)).
Proof.
  split; [vm_compute; reflexivity|]. split; [vm_compute; reflexivity|].
  apply (updateIdDataset_maxValue sampleState (IdNum 2) otherDataset).
  - vm_compute. reflexivity.
  - exists {| metric_id := None; metric_name := "A";
              percents := [Some 3%Q; Some 7%Q; None] |}, 3%Q.
    split_and!.
    + apply list_elem_of_here.
    + vm_compute. apply list_elem_of_here.
    + apply list_elem_of_here.
Defined.

(** ** Missing layout measurements *)

(** C5. Without column coordinates [segments] and [tooltip] are null, and
    without a hovered segment [tooltip] is null; in either case the
    computation returns normally. *)
Theorem null_without_layout s :
  (columnsCoords (reactive s) = None →
   segments s = Ok None ∧ tooltip s = Ok None) ∧
  (hoveredSegment (reactive s) = None → tooltip s = Ok None).
Proof.
  unfold segments, tooltip. split.
  - by intros ->.
  - intros ->. by destruct (columnsCoords (reactive s)).
Qed.

Lemma null_without_layout_witness :
  segments sampleInit = Ok None ∧ tooltip sampleInit = Ok None ∧
  tooltip (resetHoveredSegment sampleState) = Ok None.
Proof.
  split_and!.
  - apply (proj1 (null_without_layout sampleInit)). reflexivity.
  - apply (proj1 (null_without_layout sampleInit)). reflexivity.
  - apply (proj2 (null_without_layout (resetHoveredSegment sampleState))). reflexivity.
Defined.

(** ** The legend toggle touches one field *)

(** C7. [updateFilterLegend] assigns [filterLegends] and nothing else: the
    dataset filter, the mouse coordinates, the hovered and the highlighted
    segment, the axis origin, the column coordinates, and the store outside
    the reactive state are as before. *)
Theorem updateFilterLegend_frame name s :
  let s' := updateFilterLegend name s in
  filterIdDataset (reactive s') = filterIdDataset (reactive s) ∧
  mouseCoords (reactive s') = mouseCoords (reactive s) ∧
  hoveredSegment (reactive s') = hoveredSegment (reactive s) ∧
  highlightSegment (reactive s') = highlightSegment (reactive s) ∧
  axisYOrigin (reactive s') = axisYOrigin (reactive s) ∧
  columnsCoords (reactive s') = columnsCoords (reactive s) ∧
  initialValue s' = initialValue s ∧
  columnWidth s' = columnWidth s.
Proof. by split_and!. Qed.

(** ** The default maximum *)

(** C9. When the active dataset identifier is not a key of the dataset map,
    or no visible metric of the active dataset has a non-null value,
    [maxValue] is 100 and the axis values are 100, 75, 50, 25, 0. *)
Theorem maxValue_default s :
  datasetsMap (initialValue s) !! filterIdDataset (reactive s) = None ∨
  (∃ dataset,
     datasetsMap (initialValue s) !! filterIdDataset (reactive s) = Some dataset ∧
     ∀ metric v, metric ∈ metrics dataset → metric_name metric ∈ filterNames s →
                 Some v ∉ percents metric) →
  maxValue s = 100%Q ∧ axisValues s = [100%Q; 75%Q; 50%Q; 25%Q; 0%Q].
Proof.
  intros H.
  assert (Hmax : maxValue s = 100%Q).
  { unfold maxValue. destruct H as [->|(dataset & -> & Hnone)]; [done|].
    destruct (selectedValues s dataset) as [|v vs] eqn:Hvals; [done|].
    assert (Hv : v ∈ selectedValues s dataset) by (rewrite Hvals; apply list_elem_of_here).
    apply elem_of_selectedValues in Hv as (metric & Hm & Hname & Hv).
    by destruct (Hnone metric v). }
  split; [done|]. unfold axisValues. rewrite Hmax. reflexivity.
Qed.

Lemma maxValue_default_witness :
  (maxValue (updateIdDataset (IdStr "1") sampleState) = 100%Q ∧
   axisValues (updateIdDataset (IdStr "1") sampleState)
   = [100%Q; 75%Q; 50%Q; 25%Q; 0%Q]) ∧
  (maxValue (updateFilterLegend "B" (updateFilterLegend "A" sampleState)) = 100%Q ∧
   axisValues (updateFilterLegend "B" (updateFilterLegend "A" sampleState))
   = [100%Q; 75%Q; 50%Q; 25%Q; 0%Q]).
Proof.
  split.
  - apply (maxValue_default (updateIdDataset (IdStr "1") sampleState)).
    left. vm_compute. reflexivity.
  - apply (maxValue_default (updateFilterLegend "B" (updateFilterLegend "A" sampleState))).
    right. exists sampleDataset. split; [vm_compute; reflexivity|].
    intros metric v Hm Hname. exfalso. revert Hname.
    assert (Hnames : filterNames (updateFilterLegend "B" (updateFilterLegend "A" sampleState)) = ["C"])
      by (vm_compute; reflexivity).
    rewrite Hnames.
    apply elem_of_cons in Hm as [->|Hm]; [by intros [=]%list_elem_of_singleton|].
    apply list_elem_of_singleton in Hm as ->. by intros [=]%list_elem_of_singleton.
Defined.

(** ** The tooltip *)

Lemma legends_fold_lookup (l : list Legend) name :
  (∀ legend,
     foldl (λ m legend, <[legend_name legend := legend]> m) (∅ : gmap string Legend) l
       !! name = Some legend →
     legend ∈ l ∧ legend_name legend = name) ∧
  ((∃ legend, legend ∈ l ∧ legend_name legend = name) →
   is_Some (foldl (λ m legend, <[legend_name legend := legend]> m)
                  (∅ : gmap string Legend) l !! name)).
Proof.
  induction l as [|x l [IH1 IH2]] using rev_ind.
  - simpl. split.
    + intros legend. by rewrite lookup_empty.
    + intros (legend & Hl & _). by apply elem_of_nil in Hl.
  - rewrite foldl_snoc. split.
    + intros legend. rewrite lookup_insert.
      destruct (decide (legend_name x = name)) as [Hx|Hx].
      * intros [= <-]. split; [|done]. apply elem_of_app. right. apply list_elem_of_here.
      * intros [Hl Hn]%IH1. split; [|done]. apply elem_of_app. by left.
    + intros (legend & Hl & Hn). rewrite lookup_insert.
      destruct (decide (legend_name x = name)) as [Hx|Hx]; [done|].
      apply IH2. exists legend. split; [|done].
      apply elem_of_app in Hl as [Hl|Hl]; [done|].
      apply list_elem_of_singleton in Hl as ->. done.
Qed.

(** The color of a series whose name is in the filter of a running chart is
    the color of a legend with that name. *)
Lemma legendColor_visible iv s name :
  reachable iv s → name ∈ filterNames s →
  ∃ legend, legend ∈ legends iv ∧ legend_name legend = name ∧
            legendColor s name = legend_color legend.
Proof.
  intros Hreach Hname.
  destruct (reachable_filterNames _ _ _ Hreach Hname) as (l0 & Hl0 & Hn0).
  apply reachable_invariant in Hreach as [Hiv _]. rewrite Hiv in *.
  unfold legendColor, legendsMap. rewrite Hiv.
  destruct (legends_fold_lookup (legends iv) name) as [H1 H2].
  destruct H2 as [legend Hlegend]; [by exists l0|].
  rewrite Hlegend. simpl. exists legend.
  destruct (H1 _ Hlegend). done.
Qed.

(** C6 (as the code has it). With non-null column coordinates and a hovered
    segment, the tooltip is null when the active dataset is not in the
    dataset map; when it is, the tooltip carries the name stored in the
    hovered segment, the coordinates of the hovered column, and one entry for
    each metric of the dataset whose name is in the legend filter, in metric
    order and for no other metric: the metric's name, its value at the
    hovered column index and the color of its legend. *)
Theorem tooltip_of_hovered_column iv s cols hovered :
  reachable iv s →
  columnsCoords (reactive s) = Some cols →
  hoveredSegment (reactive s) = Some hovered →
  match datasetsMap (initialValue s) !! filterIdDataset (reactive s) with
  | None => tooltip s = Ok None
  | Some dataset =>
      ∃ t,
        tooltip s = Ok (Some t) ∧
        tooltip_name t = hovered_name hovered ∧
        tooltip_position t = cols !! hovered_id hovered ∧
        tooltip_metrics t =
          (λ metric, {| tm_name := metric_name metric;
                        tm_percent := percents metric !! hovered_id hovered;
                        tm_color := legendColor s (metric_name metric) |})
            <$> filter (λ metric, metric_name metric ∈ filterNames s)
                       (metrics dataset) ∧
        ∀ metric, metric ∈ metrics dataset → metric_name metric ∈ filterNames s →
          ∃ legend, legend ∈ legends iv ∧ legend_name legend = metric_name metric ∧
                    legendColor s (metric_name metric) = legend_color legend
  end.
Proof.
  intros Hreach Hcols Hhov. unfold tooltip. rewrite Hcols, Hhov.
  destruct (datasetsMap (initialValue s) !! filterIdDataset (reactive s))
    as [dataset|]; [|done].
  eexists. split; [done|]. simpl. split_and!; [done..| |].
  - f_equal. apply list_filter_iff. intros metric. apply isMetricFiltered_spec.
  - intros metric _ Hname. by eapply legendColor_visible.
Qed.

Lemma tooltip_of_hovered_column_witness :
  (∃ t,
     tooltip sampleState = Ok (Some t) ∧
     tooltip_name t = "Feb" ∧
     tooltip_position t = sampleColumns !! 1%nat ∧
     tooltip_metrics t =
       (λ metric, {| tm_name := metric_name metric;
                     tm_percent := percents metric !! 1%nat;
                     tm_color := legendColor sampleState (metric_name metric) |})
         <$> filter (λ metric, metric_name metric ∈ filterNames sampleState)
                    (metrics sampleDataset) ∧
     ∀ metric, metric ∈ metrics sampleDataset →
       metric_name metric ∈ filterNames sampleState →
       ∃ legend, legend ∈ legends sampleValue ∧
                 legend_name legend = metric_name metric ∧
                 legendColor sampleState (metric_name metric) = legend_color legend) ∧
  tooltip (updateIdDataset (IdNum 7) sampleState) = Ok None.
Proof.
  split.
  - exact (tooltip_of_hovered_column sampleValue sampleState sampleColumns
             {| hovered_id := 1; hovered_name := "Feb" |}
             sampleState_reachable eq_refl eq_refl).
  - exact (tooltip_of_hovered_column sampleValue
             (updateIdDataset (IdNum 7) sampleState) sampleColumns
             {| hovered_id := 1; hovered_name := "Feb" |}
             (reachable_step _ (UpdateIdDataset (IdNum 7)) _ sampleState_reachable)
             eq_refl eq_refl).
Defined.

(** C6 (as stated) fails: the datasets of the sample chart have the numeric
    identifiers 1 and 2; after [updateIdDataset("1")], with the string the
    default [select] element reports, the store has column coordinates and a
    hovered segment, and the tooltip is null. *)
Lemma tooltip_null_for_unknown_dataset :
  let s := updateIdDataset (IdStr "1") sampleState in
  columnsCoords (reactive s) = Some sampleColumns ∧
  hoveredSegment (reactive s) = Some {| hovered_id := 1; hovered_name := "Feb" |} ∧
  tooltip s = Ok None.
Proof. vm_compute. by split_and!. Qed.

(** ** The legend filter under toggles *)

Lemma reachable_toggles iv names s :
  reachable iv s → reachable iv (toggles names s).
Proof.
  unfold toggles. revert s. induction names as [|name names IH]; intros s Hs; [done|].
  simpl. apply IH. by apply (reachable_step _ (UpdateFilterLegend name)).
Qed.

(** C10 (as the code has it). Starting from the initial store, whose legend
    filter is the first five legends, after any run of [updateFilterLegend]
    calls the legend filter is a subsequence of the legends list, in legend
    order; it is duplicate-free whenever the legends list is; and toggling on
    a name that is not in the filter yields the legends whose name was in the
    filter or is the toggled name, each at its position in the legends
    list. *)
Theorem filterLegends_subsequence iv s0 names :
  createState iv = Ok s0 →
  let s := toggles names s0 in
  filterLegends (reactive s0) = take 5 (legends iv) ∧
  filterLegends (reactive s) `sublist_of` legends iv ∧
  (NoDup (legends iv) → NoDup (filterLegends (reactive s))) ∧
  ∀ name, name ∉ filterNames s →
    filterLegends (reactive (updateFilterLegend name s))
    = filter (λ legend, legend_name legend ∈ filterNames s ∨ legend_name legend = name)
             (legends iv).
Proof.
  intros Hinit s.
  assert (Hreach : reachable iv s) by by apply reachable_toggles, reachable_init.
  destruct (reachable_invariant _ _ Hreach) as [Hiv Hsub].
  split_and!.
  - unfold createState in Hinit. destruct (datasets iv); [done|]. by injection Hinit as <-.
  - done.
  - intros Hnodup. by eapply sublist_NoDup.
  - intros name Hname. simpl. rewrite Hiv. apply list_filter_iff. intros legend.
    rewrite elem_of_toggledNames. by rewrite decide_False.
Qed.

Lemma filterLegends_subsequence_witness :
  filterLegends (reactive (toggles ["B"; "A"; "B"] sampleInit))
    `sublist_of` legends sampleValue ∧
  filterLegends (reactive (toggles ["B"; "A"; "B"] sampleInit))
  = [ {| legend_color := "#ff7f0e"; legend_name := "B" |};
      {| legend_color := "#2ca02c"; legend_name := "C" |} ].
Proof.
  split.
  - apply (filterLegends_subsequence sampleValue sampleInit ["B"; "A"; "B"]).
    reflexivity.
  - vm_compute. reflexivity.
Defined.

(** C10 (as stated) fails: a legends list that names the same legend twice
    gives an initial legend filter with a duplicate, and the duplicate is still
    there after a toggle. *)
Lemma filterLegends_repeated_legend :
  match createState repeatedLegendValue with
  | Ok s =>
      filterLegends (reactive s)
      = [ {| legend_color := "#1f77b4"; legend_name := "A" |};
          {| legend_color := "#1f77b4"; legend_name := "A" |} ] ∧
      ¬ NoDup (filterLegends (reactive s)) ∧
      ¬ NoDup (filterLegends (reactive (toggles ["B"] s)))
  | Throw _ => False
  end.
Proof.
  assert (Hdup : ¬ NoDup [ {| legend_color := "#1f77b4"; legend_name := "A" |};
                           {| legend_color := "#1f77b4"; legend_name := "A" |} ]).
  { intros Hnodup. apply NoDup_cons in Hnodup as [Hnotin _].
    apply Hnotin, list_elem_of_here. }
  vm_compute createState. split_and!; [done..|].
  by vm_compute (filterLegends _).
Qed.

(** ** The throttle *)

Section throttle_facts.
Context {Args World : Type}.
Variable fn : Args → World → World.
Variable wait : Z.
Hypothesis wait_nonneg : 0 ≤ wait.

(** Along a run that starts with [lastTime], every call that invokes [fn]
    reads a clock at least [wait] after [lastTime], and at least [wait]
    after the clock of every earlier invoking call. *)
Lemma throttledRun_spacing calls lastTime w flags st' :
  throttledRun fn wait calls (lastTime, w) = (flags, st') →
  length flags = length calls ∧
  (∀ j tj, flags !! j = Some true → calls.*1 !! j = Some tj →
           wait ≤ tj - lastTime) ∧
  (∀ i j ti tj, (i < j)%nat →
     flags !! i = Some true → flags !! j = Some true →
     calls.*1 !! i = Some ti → calls.*1 !! j = Some tj →
     wait ≤ tj - ti).
Proof using wait_nonneg.
  revert lastTime w flags st'.
  induction calls as [|[now args] calls IH]; intros lastTime w flags st'; simpl.
  - intros [= <- <-]. split; [done|]. split; intros; by simplify_eq.
  - destruct (now - lastTime >=? wait) eqn:Hge.
    + destruct (throttledRun fn wait calls (now, fn args w)) as [rest st''] eqn:Hrun.
      intros [= <- <-]. destruct (IH _ _ _ _ Hrun) as (Hlen & Hfirst & Hpair).
      apply Z.geb_le in Hge.
      split; [simpl; by rewrite Hlen|]. split.
      * intros [|j] tj Hj Htj; simpl in *.
        -- injection Htj as <-. lia.
        -- specialize (Hfirst _ _ Hj Htj). lia.
      * intros [|i] [|j] ti tj Hij Hi Hj Hti Htj; simpl in *; try lia.
        -- injection Hti as <-. by eapply Hfirst.
        -- eapply (Hpair i j); [lia|done..].
    + destruct (throttledRun fn wait calls (lastTime, w)) as [rest st''] eqn:Hrun.
      intros [= <- <-]. destruct (IH _ _ _ _ Hrun) as (Hlen & Hfirst & Hpair).
      split; [simpl; by rewrite Hlen|]. split.
      * intros [|j] tj Hj Htj; simpl in *; [done|]. by eapply Hfirst.
      * intros [|i] [|j] ti tj Hij Hi Hj Hti Htj; simpl in *; try lia; try done.
        eapply (Hpair i j); [lia|done..].
Qed.
End throttle_facts.

(** C8 (as the code has it). Along any sequence of mouse-move events, two
    calls that both invoke the coordinate update have clock readings at least
    100 ms apart; hence a call at time [tj] that follows a call which invoked
    the update at time [ti], with [tj - ti < 100], does not invoke it. *)
Theorem mouseMoves_throttled calls s flags st' :
  mouseMoves calls s = (flags, st') →
  length flags = length calls ∧
  (∀ i j ti tj, (i < j)%nat →
     flags !! i = Some true → flags !! j = Some true →
     calls.*1 !! i = Some ti → calls.*1 !! j = Some tj →
     100 ≤ tj - ti) ∧
  (∀ i j ti tj, (i < j)%nat →
     flags !! i = Some true →
     calls.*1 !! i = Some ti → calls.*1 !! j = Some tj →
     tj - ti < 100 →
     flags !! j = Some false).
Proof.
  unfold mouseMoves, useThrottle. intros Hrun.
  apply throttledRun_spacing in Hrun as (Hlen & _ & Hpair); [|lia].
  split; [done|]. split; [done|].
  intros i j ti tj Hij Hi Hti Htj Hclose.
  destruct (flags !! j) as [[|]|] eqn:Hj.
  - specialize (Hpair i j ti tj Hij Hi Hj Hti Htj). lia.
  - done.
  - apply lookup_ge_None in Hj. apply lookup_lt_Some in Htj.
    rewrite length_fmap in Htj. lia.
Qed.

Lemma mouseMoves_throttled_witness :
  let evt := ({| evt_x := 10%Q; evt_y := 20%Q |}, {| rect_x := 0%Q; rect_y := 0%Q |}) in
  (mouseMoves [(1000, evt); (1050, evt); (1100, evt)] sampleState).1
  = [true; false; true] ∧
  ([true; false; true] : list bool) !! 1%nat = Some false.
Proof.
  intros evt. split; [vm_compute; reflexivity|].
  apply (proj2 (proj2 (mouseMoves_throttled
                  [(1000, evt); (1050, evt); (1100, evt)] sampleState
                  [true; false; true]
                  (mouseMoves [(1000, evt); (1050, evt); (1100, evt)] sampleState).2
                  eq_refl))
           0%nat 1%nat 1000 1050).
  - lia.
  - reflexivity.
  - reflexivity.
  - reflexivity.
  - lia.
Defined.

(** C8 (as stated) fails: of three mouse moves at 1000, 1099 and 1100 ms the
    first invokes the update, the second is dropped, and the third, 1 ms after
    the second call, invokes the update again, 100 ms after the first. *)
Lemma throttle_counts_from_last_invocation :
  let evt := ({| evt_x := 10%Q; evt_y := 20%Q |}, {| rect_x := 0%Q; rect_y := 0%Q |}) in
  1100 - 1099 < 100 ∧
  (mouseMoves [(1000, evt); (1099, evt); (1100, evt)] sampleState).1
  = [true; false; true].
Proof. intros evt. split; [lia|]. vm_compute. reflexivity. Qed.

(** * Further properties of the chart code *)

(** ** When [segments] raises *)

(** The segments exist exactly when every visible metric fits the columns. *)
Lemma segments_Ok_iff s cols dataset :
  columnsCoords (reactive s) = Some cols →
  datasetsMap (initialValue s) !! filterIdDataset (reactive s) = Some dataset →
  (∃ segs, segments s = Ok (Some segs)) ↔
  ∀ metric j v, metric ∈ metrics dataset → metric_name metric ∈ filterNames s →
                percents metric !! j = Some (Some v) → (j < length cols)%nat.
Proof.
  intros Hcols Hds. split.
  - intros [segs (cols' & dataset' & Hc & Hd & Hall)%segments_Some] metric j v Hm Hname Hj.
    rewrite Hcols in Hc. injection Hc as <-. rewrite Hds in Hd. injection Hd as <-.
    apply list_elem_of_lookup in Hm as [i Hi].
    destruct (proj1 (Forall2_exists _ _) (ex_intro _ _ Hall) (i, metric)) as [sg Hsg].
    { apply list_elem_of_filter. split; [by apply isMetricFiltered_spec|].
      by apply elem_of_imap_pair. }
    by eapply (proj1 (mkSegment_Ok_iff s cols dataset i metric)); [exists sg|].
  - intros Hfit.
    destruct (proj2 (Forall2_exists
      (λ (im : nat * Metric) sg, mkSegment s cols dataset im.1 im.2 = Ok sg)
      (filter (λ im : nat * Metric, isMetricFiltered s (metric_name im.2))
              (imap pair (metrics dataset))))) as [segs Hsegs].
    { intros [i metric] [Hvis Him]%list_elem_of_filter. simpl in *.
      apply mkSegment_Ok_iff. intros j v Hj.
      apply elem_of_imap_pair in Him. eapply Hfit; [|by apply isMetricFiltered_spec|done].
      by eapply list_elem_of_lookup_2. }
    exists segs. apply segments_Some. by exists cols, dataset.
Qed.

(** X1. With column coordinates and an active dataset, [segments] raises a
    [TypeError] exactly when some visible metric has a non-null value at an
    index for which no column was measured; otherwise it returns a list. *)
Theorem segments_raises_iff s cols dataset :
  columnsCoords (reactive s) = Some cols →
  datasetsMap (initialValue s) !! filterIdDataset (reactive s) = Some dataset →
  (segments s = Throw TypeError ↔
   ∃ metric j v, metric ∈ metrics dataset ∧ metric_name metric ∈ filterNames s ∧
                 percents metric !! j = Some (Some v) ∧ (length cols ≤ j)%nat) ∧
  (segments s ≠ Throw TypeError → ∃ segs, segments s = Ok (Some segs)).
Proof.
  intros Hcols Hds.
  pose proof (segments_Ok_iff s cols dataset Hcols Hds) as Hiff.
  assert (Hnone : segments s ≠ Ok None).
  { intros [H|H]%segments_None; congruence. }
  split; [split|].
  - intros Hthrow.
    destruct (decide (Exists (λ metric, metric_name metric ∈ filterNames s ∧
        Exists (λ jp : nat * option Q, is_Some jp.2 ∧ (length cols ≤ jp.1)%nat)
               (imap pair (percents metric))) (metrics dataset))) as [Hex|Hnex].
    + apply Exists_exists in Hex as (metric & Hm & Hname & Hex).
      apply Exists_exists in Hex as ([j p] & Hjp & [v Hv] & Hj). simpl in *. subst p.
      apply elem_of_imap_pair in Hjp. by exists metric, j, v.
    + destruct (proj2 Hiff) as [segs Hsegs]; [|congruence].
      intros metric j v Hm Hname Hj.
      destruct (decide (j < length cols)%nat) as [|Hge]; [done|]. exfalso. apply Hnex.
      apply Exists_exists. exists metric. split_and!; [done..|].
      apply Exists_exists. exists (j, Some v). split_and!; simpl; [|by eexists|lia].
      by apply elem_of_imap_pair.
  - intros (metric & j & v & Hm & Hname & Hj & Hge).
    destruct (segments s) as [[segs|]|[]] eqn:Hsegs; [|done..].
    pose proof (proj1 Hiff (ex_intro _ _ eq_refl) metric j v Hm Hname Hj). lia.
  - intros Hne. destruct (segments s) as [[segs|]|[]]; [by eexists|done..].
Qed.

Lemma segments_raises_iff_witness :
  segments (updateColumnsCoords (Some (take 2 sampleColumns)) sampleState)
  = Throw TypeError.
Proof.
  apply (proj1 (segments_raises_iff
                  (updateColumnsCoords (Some (take 2 sampleColumns)) sampleState)
                  (take 2 sampleColumns) sampleDataset eq_refl
                  ltac:(vm_compute; reflexivity))).
  exists metricA, 2%nat, 5%Q. split_and!.
  - apply list_elem_of_here.
  - vm_compute. apply list_elem_of_here.
  - reflexivity.
  - simpl. lia.
Defined.

(** ** The shape of the segments *)

Lemma filter_imap_pair_snd {A : Type} (P : A → Prop) `{!∀ x, Decision (P x)}
    (f : nat → nat) (l : list A) :
  (filter (λ im : nat * A, P im.2) (imap (λ k a, (f k, a)) l)).*2 = filter P l.
Proof.
  revert f. induction l as [|a l IH]; intros f; [done|].
  rewrite imap_cons. destruct (decide (P a)) as [Ha|Ha].
  - rewrite !filter_cons_True by done. simpl. f_equal. apply (IH (f ∘ S)).
  - rewrite !filter_cons_False by done. apply (IH (f ∘ S)).
Qed.

Lemma Forall2_fmap_eq {A B C : Type} (R : A → B → Prop) (f : A → C) (g : B → C) l k :
  (∀ x y, R x y → f x = g y) → Forall2 R l k → f <$> l = g <$> k.
Proof.
  intros Hfg. induction 1 as [|x y l k Hxy _ IH]; [done|].
  rewrite !fmap_cons. by rewrite (Hfg _ _ Hxy), IH.
Qed.

Lemma visible_metrics_filter s (ms : list Metric) :
  filter (λ metric, isMetricFiltered s (metric_name metric)) ms
  = filter (λ metric, metric_name metric ∈ filterNames s) ms.
Proof. apply list_filter_iff. intros metric. apply isMetricFiltered_spec. Qed.

(** The segments of a store, seen from its visible metrics. *)
Lemma segments_visible s segs dataset :
  segments s = Ok (Some segs) →
  datasetsMap (initialValue s) !! filterIdDataset (reactive s) = Some dataset →
  ∃ cols,
    columnsCoords (reactive s) = Some cols ∧
    Forall2 (λ metric sg, ∃ i, mkSegment s cols dataset i metric = Ok sg)
            (filter (λ metric, metric_name metric ∈ filterNames s) (metrics dataset))
            segs.
Proof.
  intros (cols & dataset' & Hc & Hd & Hall)%segments_Some Hds.
  rewrite Hds in Hd. injection Hd as <-. exists cols. split; [done|].
  rewrite <- visible_metrics_filter.
  assert (Heq : filter (λ metric, isMetricFiltered s (metric_name metric)) (metrics dataset)
                = (filter (λ im : nat * Metric, isMetricFiltered s (metric_name im.2))
                          (imap pair (metrics dataset))).*2).
  { symmetry. exact (filter_imap_pair_snd
                       (λ metric, isMetricFiltered s (metric_name metric)) id _). }
  rewrite Heq. apply Forall2_fmap_l.
  eapply Forall2_impl; [exact Hall|]. intros [i metric] sg Hmk. by exists i.
Qed.

(** X2. When [segments] returns a list, it holds one segment for each metric
    of the active dataset whose name is in the legend filter, in metric
    order: the segment has the metric's name and legend color, one point for
    each entry of [percents], and one path fewer than points. *)
Theorem segments_follow_visible_metrics s segs dataset :
  segments s = Ok (Some segs) →
  datasetsMap (initialValue s) !! filterIdDataset (reactive s) = Some dataset →
  Forall2 (λ metric sg,
             segment_name sg = metric_name metric ∧
             segment_color sg = legendColor s (metric_name metric) ∧
             length (pointCoords sg) = length (percents metric) ∧
             length (pathCoords sg) = (length (percents metric) - 1)%nat)
          (filter (λ metric, metric_name metric ∈ filterNames s) (metrics dataset))
          segs.
Proof.
  intros Hsegs Hds.
  destruct (segments_visible _ _ _ Hsegs Hds) as (cols & _ & Hall).
  eapply Forall2_impl; [exact Hall|].
  intros metric sg [i (Hpc & Hpath & Hname & Hcolor)%mkSegment_Ok].
  apply mapi_from_lookup in Hpc as [Hlen _].
  split_and!; [done..|]. by rewrite Hpath, mkPathCoords_length, Hlen.
Qed.

Lemma segments_follow_visible_metrics_witness :
  Forall2 (λ metric sg,
             segment_name sg = metric_name metric ∧
             segment_color sg = legendColor sampleState (metric_name metric) ∧
             length (pointCoords sg) = length (percents metric) ∧
             length (pathCoords sg) = (length (percents metric) - 1)%nat)
          (filter (λ metric, metric_name metric ∈ filterNames sampleState)
                  (metrics sampleDataset))
          sampleSegments.
Proof.
  apply (segments_follow_visible_metrics sampleState sampleSegments sampleDataset).
  - vm_compute. reflexivity.
  - vm_compute. reflexivity.
Defined.

(** X3. When the tooltip and the segments are both there, the tooltip lists
    the series of the segments: the same names with the same colors, in the
    same order. *)
Theorem tooltip_lists_the_segments s segs t :
  segments s = Ok (Some segs) →
  tooltip s = Ok (Some t) →
  (λ e, (tm_name e, tm_color e)) <$> tooltip_metrics t
  = (λ sg, (segment_name sg, segment_color sg)) <$> segs.
Proof.
  intros Hsegs Htip.
  pose proof Hsegs as (cols & dataset & Hc & Hd & _)%segments_Some.
  destruct (segments_visible _ _ _ Hsegs Hd) as (cols' & _ & Hall).
  unfold tooltip in Htip. rewrite Hc, Hd in Htip.
  destruct (hoveredSegment (reactive s)) as [hovered|]; [|done].
  injection Htip as <-. simpl.
  rewrite visible_metrics_filter, <- list_fmap_compose.
  eapply Forall2_fmap_eq; [|exact Hall].
  intros metric sg [i (_ & _ & Hname & Hcolor)%mkSegment_Ok]. simpl.
  by rewrite Hname, Hcolor.
Qed.

Lemma tooltip_lists_the_segments_witness :
  (λ e, (tm_name e, tm_color e))
    <$> tooltip_metrics
          {| tooltip_name := "Feb";
             tooltip_metrics :=
               [ {| tm_name := "A"; tm_percent := Some None; tm_color := "#1f77b4" |};
                 {| tm_name := "B"; tm_percent := Some (Some 4%Q); tm_color := "#ff7f0e" |} ];
             tooltip_position := Some {| coord_x := 150%Q; coord_y := 100%Q |} |}
  = (λ sg, (segment_name sg, segment_color sg)) <$> sampleSegments.
Proof.
  apply (tooltip_lists_the_segments sampleState).
  - vm_compute. reflexivity.
  - vm_compute. reflexivity.
Defined.

(** ** Generated segment identifiers *)

Lemma string_length_app (s t : string) :
  String.length (s +:+ t) = (String.length s + String.length t)%nat.
Proof. induction s as [|c s IH]; simpl; [done|]. by rewrite IH. Qed.

Lemma string_app_inj_l (s1 s2 t1 t2 : string) :
  String.length s1 = String.length s2 → s1 +:+ t1 = s2 +:+ t2 → s1 = s2.
Proof.
  revert s2. induction s1 as [|c s1 IH]; intros [|c' s2]; simpl; try done.
  intros [= Hlen] [= -> Happ]. f_equal. by apply IH.
Qed.

Lemma string_app_cancel_r (s1 s2 t : string) : s1 +:+ t = s2 +:+ t → s1 = s2.
Proof.
  intros Happ. eapply string_app_inj_l; [|exact Happ].
  apply (f_equal String.length) in Happ. rewrite !string_length_app in Happ. lia.
Qed.

Lemma NoDup_imap_pair {A : Type} (l : list A) : NoDup (imap pair l).
Proof.
  apply NoDup_alt. intros i j [k a]. rewrite !list_lookup_imap.
  destruct (l !! i), (l !! j); simpl; intros [= ? ?] [= ? ?]; congruence.
Qed.

Lemma Forall2_fmap_eq_in {A B C : Type} (R : A → B → Prop) (f : A → C) (g : B → C) l k :
  (∀ x y, x ∈ l → R x y → f x = g y) → Forall2 R l k → f <$> l = g <$> k.
Proof.
  intros Hfg HR. induction HR as [|x y l k Hxy _ IH]; [done|].
  rewrite !fmap_cons. rewrite (Hfg _ _ (list_elem_of_here _ _) Hxy), IH; [done|].
  intros x' y' Hx'. apply Hfg. by apply list_elem_of_further.
Qed.

(** X4. When no metric of the active dataset carries an identifier of its
    own, the identifiers [segments] generates from the metric index and the
    dataset are pairwise distinct. *)
Theorem segment_ids_distinct s segs dataset :
  segments s = Ok (Some segs) →
  datasetsMap (initialValue s) !! filterIdDataset (reactive s) = Some dataset →
  (∀ metric, metric ∈ metrics dataset → metric_id metric = None) →
  NoDup (segment_id <$> segs).
Proof.
  intros (cols & dataset' & Hc & Hd & Hall)%segments_Some Hds Hnoid.
  rewrite Hds in Hd. injection Hd as <-.
  set (genId := λ im : nat * Metric,
         IdStr (pretty im.1 +:+ "-" +:+ Id_toString (dataset_id dataset)
                  +:+ "-" +:+ dataset_name dataset)).
  assert (Hids : genId <$> filter (λ im : nat * Metric, isMetricFiltered s (metric_name im.2))
                                  (imap pair (metrics dataset))
                 = segment_id <$> segs).
  { eapply Forall2_fmap_eq_in; [|exact Hall].
    intros [i metric] sg [_ Hin%elem_of_imap_pair]%list_elem_of_filter Hmk. simpl in Hmk.
    rewrite (mkSegment_id _ _ _ _ _ _ Hmk).
    rewrite (Hnoid metric) by (by eapply list_elem_of_lookup_2). done. }
  rewrite <- Hids. apply NoDup_fmap_2_strong.
  - intros [i metric] [i' metric'] [_ Hi%elem_of_imap_pair]%list_elem_of_filter
           [_ Hi'%elem_of_imap_pair]%list_elem_of_filter [= Heq].
    apply string_app_cancel_r, (inj pretty) in Heq. subst i'.
    rewrite Hi in Hi'. by injection Hi' as <-.
  - apply NoDup_filter, NoDup_imap_pair.
Qed.

Lemma segment_ids_distinct_witness : NoDup (segment_id <$> sampleSegments).
Proof.
  apply (segment_ids_distinct sampleState sampleSegments sampleDataset).
  - vm_compute. reflexivity.
  - vm_compute. reflexivity.
  - intros metric [->|Hm]%elem_of_cons; [reflexivity|].
    apply list_elem_of_singleton in Hm as ->. reflexivity.
Defined.

(** ** Where the points lie *)

Lemma adjust_bounds (v max origin : Q) :
  (0 <= v)%Q → (v <= max)%Q → (0 < max)%Q → (0 <= origin)%Q →
  (0 <= origin - ((v / max) * 100 / 100) * origin)%Q ∧
  (origin - ((v / max) * 100 / 100) * origin <= origin)%Q ∧
  (v == max → origin - ((v / max) * 100 / 100) * origin == 0)%Q ∧
  (v == 0 → origin - ((v / max) * 100 / 100) * origin == origin)%Q.
Proof.
  intros Hv Hle Hmax Horigin.
  assert (Hnorm : ((v / max) * 100 / 100 == v / max)%Q) by (field; lra).
  assert (H0 : (0 <= v / max)%Q) by (apply Qle_shift_div_l; lra).
  assert (H1 : (v / max <= 1)%Q) by (apply Qle_shift_div_r; lra).
  assert (Hp0 : (0 <= (v / max) * origin)%Q) by (by apply Qmult_le_0_compat).
  assert (Hp1 : ((v / max) * origin <= 1 * origin)%Q) by (by apply Qmult_le_compat_r).
  rewrite Hnorm. split_and!; try lra.
  - intros Heq. assert (Hone : (v / max == 1)%Q) by (rewrite Heq; field; lra).
    rewrite Hone. lra.
  - intros Heq. assert (Hzero : (v / max == 0)%Q) by (rewrite Heq; field; lra).
    rewrite Hzero. lra.
Qed.

(** X5. With a positive maximum and a non-negative axis origin, the point of
    a visible non-negative value lies between the top of the chart (y = 0)
    and the axis (y = origin): the maximum itself is drawn at the top and the
    value 0 on the axis. *)
Theorem point_within_chart s segs cols origin dataset i metric j v :
  segments s = Ok (Some segs) →
  columnsCoords (reactive s) = Some cols →
  axisYOrigin (reactive s) = Some origin →
  datasetsMap (initialValue s) !! filterIdDataset (reactive s) = Some dataset →
  metrics dataset !! i = Some metric →
  metric_name metric ∈ filterNames s →
  percents metric !! j = Some (Some v) →
  (0 <= v)%Q → (0 < maxValue s)%Q → (0 <= origin)%Q →
  ∃ sg c,
    segs !! segmentIndex s dataset i = Some sg ∧
    pointCoords sg !! j = Some (PCoord c) ∧
    (0 <= coord_y c)%Q ∧ (coord_y c <= origin)%Q ∧
    (v == maxValue s → coord_y c == 0)%Q ∧
    (v == 0 → coord_y c == origin)%Q.
Proof.
  intros Hsegs Hcols Horigin Hds Hi Hname Hv Hv0 Hmax Ho0.
  apply isMetricFiltered_spec in Hname as Hvis.
  destruct (segments_of_metric _ _ _ _ _ _ Hsegs Hcols Hds Hi Hvis) as (sg & Hsg & Hmk).
  apply mkSegment_Ok in Hmk as (Hpc & _ & _ & _).
  apply mapi_from_lookup in Hpc as [_ Hpc].
  destruct (Hpc _ _ Hv) as (p & Hp & Hpoint). simpl in Hpoint.
  unfold pointCoord in Hpoint.
  destruct (cols !! j) as [col|] eqn:Hcol; [|done].
  injection Hpoint as <-.
  assert (Hle : (v <= maxValue s)%Q).
  { assert (Hin : v ∈ selectedValues s dataset).
    { apply elem_of_selectedValues. exists metric. split_and!; [|done|].
      - by eapply list_elem_of_lookup_2.
      - by eapply list_elem_of_lookup_2. }
    destruct (maxValue_isVisibleMax s dataset Hds) as [_ Hub].
    { intros Hnil. rewrite Hnil in Hin. by apply elem_of_nil in Hin. }
    eapply Hub; [|done|]; by eapply list_elem_of_lookup_2. }
  eexists sg, _. split; [done|]. split; [exact Hp|].
  unfold useAdjustCoordinates. rewrite Horigin. simpl.
  by apply adjust_bounds.
Qed.

Lemma point_within_chart_witness :
  ∃ sg c,
    sampleSegments !! segmentIndex sampleState sampleDataset 0 = Some sg ∧
    pointCoords sg !! 0%nat = Some (PCoord c) ∧
    (0 <= coord_y c)%Q ∧ (coord_y c <= 200)%Q ∧
    (10 == maxValue sampleState → coord_y c == 0)%Q ∧
    (10 == 0 → coord_y c == 200)%Q.
Proof.
  apply (point_within_chart sampleState sampleSegments sampleColumns 200%Q
           sampleDataset 0 metricA 0 10%Q).
  - vm_compute. reflexivity.
  - reflexivity.
  - reflexivity.
  - vm_compute. reflexivity.
  - reflexivity.
  - vm_compute. apply list_elem_of_here.
  - reflexivity.
  - vm_compute. discriminate.
  - vm_compute. reflexivity.
  - vm_compute. discriminate.
Defined.

(** ** The axis *)

Lemma maxValue_cases s :
  maxValue s = 100%Q ∨
  ∃ dataset,
    datasetsMap (initialValue s) !! filterIdDataset (reactive s) = Some dataset ∧
    isVisibleMax s dataset (maxValue s).
Proof.
  destruct (datasetsMap (initialValue s) !! filterIdDataset (reactive s))
    as [dataset|] eqn:Hds; [|left; unfold maxValue; by rewrite Hds].
  destruct (selectedValues s dataset) as [|v vs] eqn:Hvals.
  - left. unfold maxValue. by rewrite Hds, Hvals.
  - right. exists dataset. split; [done|].
    apply maxValue_isVisibleMax; [done|]. by rewrite Hvals.
Qed.

(** X6. When no visible value of the active dataset is negative, the axis
    shows five integers, from the least integer not below the maximum down
    to 0, and they never increase. *)
Theorem axisValues_descend s :
  (∀ dataset metric v,
     datasetsMap (initialValue s) !! filterIdDataset (reactive s) = Some dataset →
     metric ∈ metrics dataset → metric_name metric ∈ filterNames s →
     Some v ∈ percents metric → (0 <= v)%Q) →
  ∃ a b c d : Z,
    axisValues s = [inject_Z a; inject_Z b; inject_Z c; inject_Z d; 0%Q] ∧
    (maxValue s <= inject_Z a)%Q ∧ (inject_Z a < maxValue s + 1)%Q ∧
    0 ≤ d ∧ d ≤ c ∧ c ≤ b ∧ b ≤ a.
Proof.
  intros Hnonneg.
  assert (Hmax : (0 <= maxValue s)%Q).
  { destruct (maxValue_cases s) as [->|(dataset & Hds & (metric & Hm & Hname & Hv) & _)];
      [done|]. by eapply Hnonneg. }
  set (m := maxValue s) in *.
  exists (Qceiling m), (Qceiling (3 * m / 4)), (Qceiling (2 * m / 4)), (Qceiling (m / 4)).
  assert (Hdiv : ∀ q : Q, (q / 4 == q * (1 # 4))%Q) by (intros; reflexivity).
  split_and!.
  - reflexivity.
  - apply Qle_ceiling.
  - pose proof (Qceiling_lt m) as Hlt.
    unfold Z.sub in Hlt. rewrite inject_Z_plus in Hlt.
    change (inject_Z (Z.opp 1)) with (-1 # 1)%Q in Hlt. lra.
  - change 0 with (Qceiling 0). apply Qceiling_resp_le. rewrite Hdiv. lra.
  - apply Qceiling_resp_le. rewrite !Hdiv. lra.
  - apply Qceiling_resp_le. rewrite !Hdiv. lra.
  - apply Qceiling_resp_le. rewrite !Hdiv. lra.
Qed.

Lemma axisValues_descend_witness :
  ∃ a b c d : Z,
    axisValues sampleState = [inject_Z a; inject_Z b; inject_Z c; inject_Z d; 0%Q] ∧
    (maxValue sampleState <= inject_Z a)%Q ∧
    (inject_Z a < maxValue sampleState + 1)%Q ∧
    0 ≤ d ∧ d ≤ c ∧ c ≤ b ∧ b ≤ a.
Proof.
  apply (axisValues_descend sampleState).
  intros dataset metric v Hds Hm _ Hv.
  assert (Hl : datasetsMap (initialValue sampleState) !! filterIdDataset (reactive sampleState)
               = Some sampleDataset) by (vm_compute; reflexivity).
  rewrite Hl in Hds. injection Hds as <-.
  apply elem_of_cons in Hm as [->|Hm];
    [|apply list_elem_of_singleton in Hm as ->];
    simpl in Hv;
    repeat (apply elem_of_cons in Hv as [Heq|Hv];
            [try discriminate Heq; injection Heq as ->; vm_compute; discriminate|]);
    by apply elem_of_nil in Hv.
Defined.

(** ** The maximum under legend toggles *)

Lemma maxValue_mono s s' dataset :
  datasetsMap (initialValue s) !! filterIdDataset (reactive s) = Some dataset →
  datasetsMap (initialValue s') !! filterIdDataset (reactive s') = Some dataset →
  (∀ name, name ∈ filterNames s → name ∈ filterNames s') →
  selectedValues s dataset ≠ [] →
  (maxValue s <= maxValue s')%Q.
Proof.
  intros Hds Hds' Hsub Hne.
  destruct (maxValue_isVisibleMax s dataset Hds Hne) as [(metric & Hm & Hname & Hv) _].
  destruct (maxValue_isVisibleMax s' dataset Hds') as [_ Hub].
  - intros Hnil.
    assert (Hin : maxValue s ∈ selectedValues s' dataset).
    { apply elem_of_selectedValues. exists metric. split_and!; [done| |done]. by apply Hsub. }
    rewrite Hnil in Hin. by apply elem_of_nil in Hin.
  - eapply Hub; [done| |done]. by apply Hsub.
Qed.

(** X7. In a running chart whose active dataset exists, showing one more
    series never lowers the normalisation maximum when a value was visible
    before, and hiding a series never raises it when a value stays visible. *)
Theorem maxValue_follows_toggle iv s name dataset :
  reachable iv s →
  datasetsMap (initialValue s) !! filterIdDataset (reactive s) = Some dataset →
  (name ∉ filterNames s → selectedValues s dataset ≠ [] →
   (maxValue s <= maxValue (updateFilterLegend name s))%Q) ∧
  (name ∈ filterNames s → selectedValues (updateFilterLegend name s) dataset ≠ [] →
   (maxValue (updateFilterLegend name s) <= maxValue s)%Q).
Proof.
  intros Hreach Hds. split.
  - intros Hname Hne. apply (maxValue_mono _ _ dataset); [done..| |done].
    intros x Hx. apply filterNames_updateFilterLegend. split.
    + by eapply reachable_filterNames.
    + apply elem_of_toggledNames. rewrite decide_False by done. by left.
  - intros Hname Hne. apply (maxValue_mono _ _ dataset); [done..| |done].
    intros x [_ Hx]%filterNames_updateFilterLegend.
    apply elem_of_toggledNames in Hx. rewrite decide_True in Hx by done. tauto.
Qed.

Lemma maxValue_follows_toggle_witness :
  (maxValue (updateFilterLegend "B" sampleState)
   <= maxValue (updateFilterLegend "B" (updateFilterLegend "B" sampleState)))%Q ∧
  (maxValue (updateFilterLegend "B" sampleState) <= maxValue sampleState)%Q.
Proof.
  split.
  - apply (maxValue_follows_toggle sampleValue (updateFilterLegend "B" sampleState)
             "B" sampleDataset).
    + apply (reachable_step _ (UpdateFilterLegend "B")), sampleState_reachable.
    + vm_compute. reflexivity.
    + vm_compute. intros [[=]|[[=]|[]%elem_of_nil]%elem_of_cons]%elem_of_cons.
    + vm_compute. discriminate.
  - apply (maxValue_follows_toggle sampleValue sampleState "B" sampleDataset).
    + exact sampleState_reachable.
    + vm_compute. reflexivity.
    + vm_compute. apply list_elem_of_further, list_elem_of_here.
    + vm_compute. discriminate.
Defined.

(** ** The algebra of legend toggles *)

Lemma filter_ext_in {A : Type} (P Q : A → Prop)
    `{!∀ x, Decision (P x)} `{!∀ x, Decision (Q x)} (l : list A) :
  (∀ x, x ∈ l → (P x ↔ Q x)) → filter P l = filter Q l.
Proof.
  induction l as [|x l IH]; intros Hext; [done|].
  assert (Hx : P x ↔ Q x) by apply Hext, list_elem_of_here.
  assert (Hl : filter P l = filter Q l).
  { apply IH. intros y Hy. by apply Hext, list_elem_of_further. }
  destruct (decide (P x)) as [HP|HP].
  - rewrite !filter_cons_True by tauto. by rewrite Hl.
  - rewrite !filter_cons_False by tauto. done.
Qed.

Lemma State_ext s1 s2 :
  initialValue s1 = initialValue s2 →
  columnWidth s1 = columnWidth s2 →
  axisYOrigin (reactive s1) = axisYOrigin (reactive s2) →
  columnsCoords (reactive s1) = columnsCoords (reactive s2) →
  mouseCoords (reactive s1) = mouseCoords (reactive s2) →
  hoveredSegment (reactive s1) = hoveredSegment (reactive s2) →
  highlightSegment (reactive s1) = highlightSegment (reactive s2) →
  filterIdDataset (reactive s1) = filterIdDataset (reactive s2) →
  filterLegends (reactive s1) = filterLegends (reactive s2) →
  s1 = s2.
Proof.
  destruct s1 as [? ? []], s2 as [? ? []]; simpl. intros; by subst.
Qed.

(** A name is in the toggled set when it was in the filter or is the toggled
    name, but not both. *)
Lemma toggledNames_xor name s x :
  x ∈ toggledNames name s ↔ (x ∈ filterNames s ↔ x ≠ name).
Proof.
  rewrite elem_of_toggledNames.
  destruct (decide (name ∈ filterNames s)) as [Hn|Hn];
    destruct (decide (x = name)) as [->|Hx]; tauto.
Qed.

Lemma legend_in_toggled name s legend :
  legend ∈ legends (initialValue s) →
  legend_name legend ∈ filterNames (updateFilterLegend name s) ↔
  (legend_name legend ∈ filterNames s ↔ legend_name legend ≠ name).
Proof.
  intros Hl. rewrite filterNames_updateFilterLegend, toggledNames_xor.
  split; [tauto|]. intros H. split; [by exists legend|done].
Qed.

Lemma updateFilterLegend_closed name s : nameClosed (updateFilterLegend name s).
Proof.
  unfold nameClosed. simpl. apply filter_ext_in. intros legend Hl.
  rewrite filterNames_updateFilterLegend. split; [|tauto].
  intros H. split; [by exists legend|done].
Qed.

Lemma updateFilterLegend_twice name s :
  nameClosed s → updateFilterLegend name (updateFilterLegend name s) = s.
Proof.
  intros Hclosed.
  assert (Hf : filterLegends (reactive (updateFilterLegend name (updateFilterLegend name s)))
               = filterLegends (reactive s)).
  { etrans; [|symmetry; exact Hclosed]. simpl. apply filter_ext_in. intros legend Hl.
    rewrite toggledNames_xor, (legend_in_toggled name s legend Hl).
    destruct (decide (legend_name legend ∈ filterNames s));
      destruct (decide (legend_name legend = name)); tauto. }
  by apply State_ext.
Qed.

Lemma filter_none {A : Type} (P : A → Prop) `{!∀ x, Decision (P x)} (l : list A) :
  (∀ x, x ∈ l → ¬ P x) → filter P l = [].
Proof.
  induction l as [|x l IH]; intros Hnone; [done|].
  rewrite filter_cons_False by apply Hnone, list_elem_of_here.
  apply IH. intros y Hy. by apply Hnone, list_elem_of_further.
Qed.

Lemma filter_all {A : Type} (P : A → Prop) `{!∀ x, Decision (P x)} (l : list A) :
  (∀ x, x ∈ l → P x) → filter P l = l.
Proof.
  induction l as [|x l IH]; intros Hall; [done|].
  rewrite filter_cons_True by apply Hall, list_elem_of_here.
  f_equal. apply IH. intros y Hy. by apply Hall, list_elem_of_further.
Qed.

Lemma take_filter_NoDup {A B : Type} `{!EqDecision B} (f : A → B) (l : list A) n :
  NoDup (f <$> l) →
  take n l = filter (λ x, f x ∈ f <$> take n l) l.
Proof.
  intros Hnodup.
  assert (Hsplit : filter (λ x, f x ∈ f <$> take n l) l
                   = filter (λ x, f x ∈ f <$> take n l) (take n l)
                     ++ filter (λ x, f x ∈ f <$> take n l) (drop n l)).
  { rewrite <- filter_app. by rewrite take_drop. }
  rewrite <- (take_drop n l), fmap_app in Hnodup.
  apply NoDup_app in Hnodup as (_ & Hdisj & _).
  rewrite Hsplit, filter_all, filter_none, app_nil_r; [done| |].
  - intros x Hx Hin. apply (Hdisj (f x)); [done|]. by apply list_elem_of_fmap_2.
  - intros x Hx. by apply list_elem_of_fmap_2.
Qed.

Lemma reachable_nameClosed iv s :
  reachable iv s → NoDup (legend_name <$> legends iv) → nameClosed s.
Proof.
  intros Hreach Hnodup. induction Hreach as [s Hinit|a s _ IH].
  - unfold createState in Hinit. destruct (datasets iv); [done|].
    injection Hinit as <-. unfold nameClosed, filterNames. simpl.
    by apply take_filter_NoDup.
  - destruct a; try exact IH. apply updateFilterLegend_closed.
Qed.

(** X8. In a running chart whose legends have pairwise distinct names,
    toggling the same legend name twice gives back the store as it was. *)
Theorem toggle_twice_restores iv s name :
  reachable iv s →
  NoDup (legend_name <$> legends iv) →
  updateFilterLegend name (updateFilterLegend name s) = s.
Proof.
  intros Hreach Hnodup. apply updateFilterLegend_twice. by eapply reachable_nameClosed.
Qed.

Lemma toggle_twice_restores_witness :
  updateFilterLegend "B" (updateFilterLegend "B" sampleState) = sampleState ∧
  updateFilterLegend "Z" (updateFilterLegend "Z" sampleState) = sampleState.
Proof.
  assert (Hnodup : NoDup (legend_name <$> legends sampleValue)).
  { apply (bool_decide_unpack _). vm_compute. exact I. }
  split.
  - apply (toggle_twice_restores sampleValue sampleState "B");
      [exact sampleState_reachable|exact Hnodup].
  - apply (toggle_twice_restores sampleValue sampleState "Z");
      [exact sampleState_reachable|exact Hnodup].
Defined.

(** X9. Whatever the store, after a toggle the legend filter holds every
    legend of each name it contains, so that a third toggle of the same name
    undoes the second: three toggles equal one. *)
Theorem toggle_thrice name s :
  nameClosed (updateFilterLegend name s) ∧
  updateFilterLegend name (updateFilterLegend name (updateFilterLegend name s))
  = updateFilterLegend name s.
Proof.
  split; [apply updateFilterLegend_closed|].
  apply updateFilterLegend_twice, updateFilterLegend_closed.
Qed.

(** X10. Legend toggles commute: toggling two names in either order gives
    the same store. *)
Theorem toggles_commute a b s :
  updateFilterLegend a (updateFilterLegend b s)
  = updateFilterLegend b (updateFilterLegend a s).
Proof.
  assert (Hf : filterLegends (reactive (updateFilterLegend a (updateFilterLegend b s)))
               = filterLegends (reactive (updateFilterLegend b (updateFilterLegend a s)))).
  { simpl. apply filter_ext_in. intros legend Hl.
    rewrite !toggledNames_xor.
    rewrite (legend_in_toggled b s legend Hl), (legend_in_toggled a s legend Hl).
    destruct (decide (legend_name legend ∈ filterNames s));
      destruct (decide (legend_name legend = a));
      destruct (decide (legend_name legend = b)); tauto. }
  by apply State_ext.
Qed.

(** ** What the throttle lets through *)

Section throttle_effects.
Context {Args World : Type}.
Variable fn : Args → World → World.
Variable wait : Z.

Lemma passed_cons_true (rest : list bool) (c : Z * Args) calls :
  passed (true :: rest) (c :: calls) = c :: passed rest calls.
Proof.
  unfold passed. change (zip (true :: rest) (c :: calls)) with ((true, c) :: zip rest calls).
  by rewrite filter_cons_True.
Qed.

Lemma passed_cons_false (rest : list bool) (c : Z * Args) calls :
  passed (false :: rest) (c :: calls) = passed rest calls.
Proof.
  unfold passed. change (zip (false :: rest) (c :: calls)) with ((false, c) :: zip rest calls).
  by rewrite filter_cons_False.
Qed.

(** The world after a run is the world after the calls that passed, and
    [lastTime] is the clock reading of the last of them. *)
Lemma throttledRun_passed calls lastTime w flags lastTime' w' :
  throttledRun fn wait calls (lastTime, w) = (flags, (lastTime', w')) →
  w' = foldl (λ w (c : Z * Args), fn c.2 w) w (passed flags calls) ∧
  lastTime' = default lastTime (fst <$> last (passed flags calls)).
Proof.
  revert lastTime w flags lastTime' w'.
  induction calls as [|[now args] calls IH]; intros lastTime w flags lastTime' w'; simpl.
  - by intros [= <- <- <-].
  - destruct (now - lastTime >=? wait).
    + destruct (throttledRun fn wait calls (now, fn args w)) as [rest [t'' w'']] eqn:Hrun.
      intros [= <- <- <-]. destruct (IH _ _ _ _ _ Hrun) as [-> ->].
      rewrite passed_cons_true. split; [done|].
      destruct (passed rest calls) as [|p l]; [reflexivity|].
      change (last ((now, args) :: p :: l)) with (last (p :: l)).
      destruct (last (p :: l)) eqn:Hlast; [done|]. by apply last_None in Hlast.
    + destruct (throttledRun fn wait calls (lastTime, w)) as [rest [t'' w'']] eqn:Hrun.
      intros [= <- <- <-]. rewrite passed_cons_false. by apply IH.
Qed.

(** A call passes when its clock reading is at least [wait] after
    [lastTime] and after the reading of every earlier call. *)
Lemma throttledRun_passes calls lastTime w j tj :
  calls.*1 !! j = Some tj →
  wait ≤ tj - lastTime →
  (∀ i ti, (i < j)%nat → calls.*1 !! i = Some ti → wait ≤ tj - ti) →
  (throttledRun fn wait calls (lastTime, w)).1 !! j = Some true.
Proof.
  revert lastTime w j.
  induction calls as [|[now args] calls IH]; intros lastTime w j Hj Hlast Hearlier;
    [done|]. simpl.
  destruct j as [|j]; simpl in Hj.
  - injection Hj as ->. apply Z.geb_le in Hlast. rewrite Hlast.
    by destruct (throttledRun fn wait calls (tj, fn args w)) as [rest st''].
  - destruct (now - lastTime >=? wait).
    + specialize (IH now (fn args w) j Hj).
      destruct (throttledRun fn wait calls (now, fn args w)) as [rest st'']. simpl in *.
      apply IH; [by apply (Hearlier 0%nat); [lia|]|].
      intros i ti Hi Hti. apply (Hearlier (S i)); [lia|done].
    + specialize (IH lastTime w j Hj).
      destruct (throttledRun fn wait calls (lastTime, w)) as [rest st'']. simpl in *.
      apply IH; [done|].
      intros i ti Hi Hti. apply (Hearlier (S i)); [lia|done].
Qed.
End throttle_effects.

Lemma updateMouseCoords_last (l : list (Z * (MouseEvent * DOMRect))) s :
  foldl (λ w (c : Z * (MouseEvent * DOMRect)),
           (λ '(evt, container), updateMouseCoords (useMouseCoords evt container)) c.2 w)
        s l
  = match last l with
    | Some (_, (evt, container)) => updateMouseCoords (useMouseCoords evt container) s
    | None => s
    end.
Proof.
  induction l as [|[now [evt container]] l IH] using rev_ind; [done|].
  rewrite foldl_snoc, last_snoc. simpl. rewrite IH.
  by destruct (last l) as [[? [? ?]]|].
Qed.

(** X11. After any sequence of calls of the mouse-move handler, the
    [mouseCoords] of the store are the coordinates of the last move that
    passed the throttle, or the ones from before when no move passed: a later
    move that was dropped is never delivered afterwards.  [lastTime] is the
    clock reading of that move, or still 0.  (The statement is about the one
    field the handler writes; the column components, which react to an
    accepted move, write [hoveredSegment] only.) *)
Theorem mouseMoves_keep_last_passed calls s flags lastTime s' :
  mouseMoves calls s = (flags, (lastTime, s')) →
  mouseCoords (reactive s')
  = match last (passed flags calls) with
    | Some (_, (evt, container)) => useMouseCoords evt container
    | None => mouseCoords (reactive s)
    end ∧
  lastTime = default 0 (fst <$> last (passed flags calls)).
Proof.
  unfold mouseMoves, useThrottle. intros [-> ->]%throttledRun_passed.
  rewrite updateMouseCoords_last.
  split; [|done]. by destruct (last (passed flags calls)) as [[? [? ?]]|].
Qed.

Lemma mouseMoves_keep_last_passed_witness :
  let evt x := ({| evt_x := x; evt_y := 20%Q |}, {| rect_x := 5%Q; rect_y := 0%Q |}) in
  mouseCoords (reactive
    (mouseMoves [(1000, evt 10%Q); (1100, evt 30%Q); (1150, evt 70%Q)] sampleState).2.2)
  = useMouseCoords {| evt_x := 30%Q; evt_y := 20%Q |} {| rect_x := 5%Q; rect_y := 0%Q |}.
Proof.
  intros evt.
  exact (proj1 (mouseMoves_keep_last_passed
                  [(1000, evt 10%Q); (1100, evt 30%Q); (1150, evt 70%Q)] sampleState
                  [true; true; false] 1100
                  (mouseMoves [(1000, evt 10%Q); (1100, evt 30%Q); (1150, evt 70%Q)]
                              sampleState).2.2
                  eq_refl)).
Defined.

(** X12. A mouse move whose clock reading is at least 100 ms, and at least
    100 ms after the reading of every earlier move, updates the
    coordinates. *)
Theorem mouseMoves_passes calls s j tj :
  calls.*1 !! j = Some tj →
  100 ≤ tj →
  (∀ i ti, (i < j)%nat → calls.*1 !! i = Some ti → 100 ≤ tj - ti) →
  (mouseMoves calls s).1 !! j = Some true.
Proof.
  intros Hj Hfirst Hearlier. unfold mouseMoves, useThrottle.
  eapply throttledRun_passes; [done|lia|done].
Qed.

Lemma mouseMoves_passes_witness :
  let evt := ({| evt_x := 10%Q; evt_y := 20%Q |}, {| rect_x := 0%Q; rect_y := 0%Q |}) in
  (mouseMoves [(1000, evt); (1050, evt); (1150, evt)] sampleState).1 !! 2%nat
  = Some true.
Proof.
  intros evt.
  apply (mouseMoves_passes [(1000, evt); (1050, evt); (1150, evt)] sampleState 2 1150).
  - reflexivity.
  - lia.
  - intros [|[|i]] ti Hi Hti; simpl in Hti; try lia; injection Hti as <-; lia.
Defined.

(** ** Measuring the columns *)

Lemma cr_left_x (r : ClientRect) : (0 <= cr_width r)%Q → cr_left r = cr_x r.
Proof.
  intros Hw. unfold cr_left.
  assert (H : Qle_bool (cr_x r) (cr_x r + cr_width r) = true) by (apply Qle_bool_iff; lra).
  by rewrite H.
Qed.

Lemma cr_top_y (r : ClientRect) : (0 <= cr_height r)%Q → cr_top r = cr_y r.
Proof.
  intros Hh. unfold cr_top.
  assert (H : Qle_bool (cr_y r) (cr_y r + cr_height r) = true) by (apply Qle_bool_iff; lra).
  by rewrite H.
Qed.

(** X13. Once the container and the columns are mounted, [setColumnsCoords]
    stores one coordinate for each column, and, rectangles having
    non-negative sizes, the coordinate of a column lies inside the bounds
    [useElementBounds] gives that column: a pointer at the stored coordinate
    is over its column. *)
Theorem column_coordinate_inside_bounds container columns s k column :
  (0 <= cr_width container)%Q → (0 <= cr_height container)%Q →
  columns !! k = Some column →
  (0 <= cr_width column)%Q → (0 <= cr_height column)%Q →
  ∃ cols coord,
    columnsCoords (reactive (setColumnsCoords (Some container) (Some columns) s))
    = Some cols ∧
    length cols = length columns ∧
    cols !! k = Some coord ∧
    useIsMouseInside coord (useElementBounds container column) = true.
Proof.
  intros Hcw Hch Hk Hw Hh. eexists _, _. simpl. split_and!; [done| | |].
  - by rewrite length_fmap.
  - by rewrite list_lookup_fmap, Hk.
  - unfold useIsMouseInside, useElementBounds, useElementCoords. simpl.
    rewrite !cr_left_x, !cr_top_y by done.
    rewrite !andb_true_iff, !Qle_bool_iff.
    assert (Hw2 : (cr_width column / 2 == cr_width column * (1 # 2))%Q) by reflexivity.
    assert (Hh2 : (cr_height column / 2 == cr_height column * (1 # 2))%Q) by reflexivity.
    rewrite Hw2, Hh2. split_and!; lra.
Qed.

Lemma column_coordinate_inside_bounds_witness :
  let container := {| cr_x := 40%Q; cr_y := 10%Q; cr_width := 300%Q; cr_height := 200%Q |} in
  let column k := {| cr_x := (40 + 100 * k)%Q; cr_y := 10%Q;
                     cr_width := 100%Q; cr_height := 200%Q |} in
  ∃ cols coord,
    columnsCoords (reactive (setColumnsCoords (Some container)
                     (Some [column 0%Q; column 1%Q; column 2%Q]) sampleInit))
    = Some cols ∧
    length cols = 3%nat ∧
    cols !! 1%nat = Some coord ∧
    useIsMouseInside coord (useElementBounds container (column 1%Q)) = true.
Proof.
  intros container column.
  apply (column_coordinate_inside_bounds container
           [column 0%Q; column 1%Q; column 2%Q] sampleInit 1 (column 1%Q)).
  - vm_compute. discriminate.
  - vm_compute. discriminate.
  - reflexivity.
  - vm_compute. discriminate.
  - vm_compute. discriminate.
Defined.

(** X14. Once the columns are measured, [segments] returns a list, without
    raising, whenever the active dataset exists and no visible metric has
    more values than there are columns. *)
Theorem segments_after_measuring container columns s dataset :
  datasetsMap (initialValue s) !! filterIdDataset (reactive s) = Some dataset →
  (∀ metric, metric ∈ metrics dataset → metric_name metric ∈ filterNames s →
             (length (percents metric) ≤ length columns)%nat) →
  ∃ segs, segments (setColumnsCoords (Some container) (Some columns) s)
          = Ok (Some segs).
Proof.
  intros Hds Hfit.
  apply (segments_Ok_iff _ ((λ column, useElementCoords container column true) <$> columns)
           dataset); [done..|].
  intros metric j v Hm Hname Hj. rewrite length_fmap.
  apply lookup_lt_Some in Hj. specialize (Hfit metric Hm Hname). lia.
Qed.

Lemma segments_after_measuring_witness :
  let container := {| cr_x := 40%Q; cr_y := 10%Q; cr_width := 300%Q; cr_height := 200%Q |} in
  let column k := {| cr_x := (40 + 100 * k)%Q; cr_y := 10%Q;
                     cr_width := 100%Q; cr_height := 200%Q |} in
  ∃ segs, segments (setColumnsCoords (Some container)
                      (Some [column 0%Q; column 1%Q; column 2%Q]) sampleInit)
          = Ok (Some segs).
Proof.
  intros container column.
  apply (segments_after_measuring container [column 0%Q; column 1%Q; column 2%Q]
           sampleInit sampleDataset).
  - vm_compute. reflexivity.
  - intros metric [->|Hm]%elem_of_cons _; [simpl; lia|].
    apply list_elem_of_singleton in Hm as ->. simpl. lia.
Defined.

(** ** Leaving the chart *)

(** X15. When the pointer leaves the chart the tooltip becomes null and the
    segments stay as they were; a column that lies inside its parent then
    drops its active flag when [toggleActive] runs, provided some segment is
    drawn, but keeps the flag it had when no segment is drawn. *)
Theorem mouse_leave_deactivates s column parentNode isActive :
  tooltip (handleMouseLeave s) = Ok None ∧
  segments (handleMouseLeave s) = segments s ∧
  (∀ sg segs, segments s = Ok (Some (sg :: segs)) →
     (cr_left parentNode <= cr_left column)%Q →
     toggleActive (Some column) (Some parentNode) (handleMouseLeave s) isActive
     = Ok false) ∧
  (segments s = Ok None ∨ segments s = Ok (Some []) →
     toggleActive (Some column) (Some parentNode) (handleMouseLeave s) isActive
     = Ok isActive).
Proof.
  assert (Hsegs : segments (handleMouseLeave s) = segments s) by reflexivity.
  split_and!.
  - unfold tooltip. simpl. by destruct (columnsCoords (reactive s)).
  - done.
  - intros sg segs Hs Hleft. unfold toggleActive. rewrite Hsegs, Hs. simpl.
    unfold useIsMouseInside, useElementBounds. simpl.
    assert (Hout : Qle_bool (cr_left column - cr_left parentNode) (-1) = false).
    { destruct (Qle_bool _ _) eqn:E; [|done]. apply Qle_bool_iff in E. lra. }
    by rewrite Hout.
  - intros Hs. unfold toggleActive. rewrite Hsegs. by destruct Hs as [->| ->].
Qed.

Lemma mouse_leave_deactivates_witness :
  let parentNode := {| cr_x := 40%Q; cr_y := 10%Q; cr_width := 300%Q; cr_height := 200%Q |} in
  let column := {| cr_x := 140%Q; cr_y := 10%Q; cr_width := 100%Q; cr_height := 200%Q |} in
  toggleActive (Some column) (Some parentNode) (handleMouseLeave sampleState) true
  = Ok false ∧
  toggleActive (Some column) (Some parentNode) (handleMouseLeave sampleInit) true
  = Ok true.
Proof.
  intros parentNode column. split.
  - destruct (mouse_leave_deactivates sampleState column parentNode true)
      as (_ & _ & H & _).
    eapply H; [vm_compute; reflexivity|vm_compute; discriminate].
  - destruct (mouse_leave_deactivates sampleInit column parentNode true)
      as (_ & _ & _ & H).
    apply H. left. reflexivity.
Defined.

(** ** Placing the tooltip *)

(** X16. With a rendered tooltip and a positive column width, [positionX]
    raises when the hovered column has no measured coordinate; otherwise it
    places the tooltip beside the hovered column, never over it: the tooltip
    ends left of the column coordinate, or, when that would start it left of
    the chart, it starts right of the coordinate. *)
Theorem positionX_beside_column rectTooltip s t width :
  tooltip s = Ok (Some t) →
  columnWidth s = Some width →
  (0 < width)%Q →
  (0 <= cr_width rectTooltip)%Q →
  match tooltip_position t with
  | None => positionX (Some rectTooltip) s = Throw TypeError
  | Some position =>
      ∃ offset,
        positionX (Some rectTooltip) s = Ok (Some offset) ∧
        ((0 <= offset ∧ offset + cr_width rectTooltip < coord_x position) ∨
         (coord_x position < offset ∧
          coord_x position - cr_width rectTooltip - width < 0))%Q
  end.
Proof.
  intros Htip Hcw Hpos Hw. unfold positionX. rewrite Htip, Hcw. simpl.
  assert (Hnz : Qeq_bool width 0 = false).
  { destruct (Qeq_bool width 0) eqn:E; [|done]. apply Qeq_bool_iff in E. lra. }
  rewrite Hnz. destruct (tooltip_position t) as [position|]; [|done].
  eexists. split; [done|].
  destruct (Qle_bool 0 (coord_x position - cr_width rectTooltip - width)) eqn:E; simpl.
  - apply Qle_bool_iff in E. left. lra.
  - right. split; [lra|].
    apply Qnot_le_lt. intros H%Qle_bool_iff. congruence.
Qed.

Lemma positionX_beside_column_witness :
  let rectTooltip := {| cr_x := 0%Q; cr_y := 0%Q; cr_width := 120%Q; cr_height := 80%Q |} in
  ∃ offset,
    positionX (Some rectTooltip) (updateColumnWidth (Some 100%Q) sampleState)
    = Ok (Some offset) ∧
    ((0 <= offset ∧ offset + 120 < 150) ∨ (150 < offset ∧ 150 - 120 - 100 < 0))%Q.
Proof.
  intros rectTooltip.
  apply (positionX_beside_column rectTooltip
           (updateColumnWidth (Some 100%Q) sampleState)
           {| tooltip_name := "Feb";
              tooltip_metrics :=
                [ {| tm_name := "A"; tm_percent := Some None; tm_color := "#1f77b4" |};
                  {| tm_name := "B"; tm_percent := Some (Some 4%Q); tm_color := "#ff7f0e" |} ];
              tooltip_position := Some {| coord_x := 150%Q; coord_y := 100%Q |} |}
           100%Q).
  - vm_compute. reflexivity.
  - reflexivity.
  - vm_compute. reflexivity.
  - vm_compute. discriminate.
Defined.

(** ** The legend list and the default filter *)

(** X17. The legend list shows at most eleven legends and accounts for the
    rest in its "+n" item; the item appears as soon as there are eleven
    legends, so with exactly eleven it reads "+0". *)
Theorem legendsView_counts s :
  let n := length (filterLegends (reactive s)) in
  ((n < 11)%nat → legendsView s = (filterLegends (reactive s), None)) ∧
  ((11 ≤ n)%nat →
     legendsView s = (take 11 (filterLegends (reactive s)), Some (n - 11)%nat)) ∧
  (n = 11%nat → legendsView s = (filterLegends (reactive s), Some 0%nat)).
Proof.
  intros n. unfold legendsView. fold n.
  assert (Hdrop : length (drop 11 (take n (filterLegends (reactive s)))) = (n - 11)%nat).
  { rewrite length_drop, length_take. unfold n. lia. }
  rewrite Hdrop. split_and!.
  - intros H. apply Nat.ltb_lt in H. by rewrite H.
  - intros H. apply Nat.ltb_ge in H. by rewrite H.
  - intros H. rewrite H. simpl. f_equal. apply take_ge. fold n. lia.
Qed.

Lemma legendsView_counts_witness :
  legendsView sampleState = (sampleLegends, None).
Proof.
  apply (proj1 (legendsView_counts sampleState)). simpl. lia.
Defined.

Lemma NoDup_fmap_lookup_inj {A B : Type} (f : A → B) (l : list A) i j x y :
  NoDup (f <$> l) → l !! i = Some x → l !! j = Some y → f x = f y → i = j.
Proof.
  intros Hnodup Hi Hj Hxy.
  apply (proj1 (NoDup_alt (f <$> l)) Hnodup i j (f x)).
  - by rewrite list_lookup_fmap, Hi.
  - by rewrite list_lookup_fmap, Hj, Hxy.
Qed.

(** X18. In a new chart whose legends have pairwise distinct names, the
    legend number [i] is in the legend filter exactly when [i < 5], while the
    checkbox the default filter renders for it is checked exactly when
    [i <= 5]: the two agree on every legend but the sixth, whose checkbox is
    checked although its series is not shown. *)
Theorem default_checkbox_and_filter iv s i legend :
  createState iv = Ok s →
  NoDup (legend_name <$> legends iv) →
  legends iv !! i = Some legend →
  (legend_name legend ∈ filterNames s ↔ (i < 5)%nat) ∧
  (defaultChecked i = true ↔ (i ≤ 5)%nat) ∧
  (i = 5%nat → defaultChecked i = true ∧ isMetricFiltered s (legend_name legend) = false).
Proof.
  intros Hinit Hnodup Hi.
  assert (Hf : filterNames s = legend_name <$> take 5 (legends iv)).
  { unfold createState in Hinit. destruct (datasets iv); [done|]. by injection Hinit as <-. }
  assert (Hin : legend_name legend ∈ filterNames s ↔ (i < 5)%nat).
  { rewrite Hf, list_elem_of_fmap. split.
    - intros (legend' & Hname & [j Hj]%list_elem_of_lookup).
      apply lookup_take_Some in Hj as [Hj Hlt].
      by rewrite (NoDup_fmap_lookup_inj legend_name (legends iv) i j legend legend').
    - intros Hlt. exists legend. split; [done|].
      apply list_elem_of_lookup. exists i. by apply lookup_take_Some. }
  split_and!; [done|apply Nat.leb_le|].
  intros ->. split; [done|].
  destruct (isMetricFiltered s (legend_name legend)) eqn:E; [|done].
  apply Is_true_true, isMetricFiltered_spec, Hin in E. lia.
Qed.

Lemma default_checkbox_and_filter_witness :
  ("C" ∈ filterNames sampleInit ↔ (2 < 5)%nat) ∧
  (defaultChecked 2 = true ↔ (2 ≤ 5)%nat) ∧
  (2%nat = 5%nat → defaultChecked 2 = true ∧ isMetricFiltered sampleInit "C" = false).
Proof.
  apply (default_checkbox_and_filter sampleValue sampleInit 2
           {| legend_color := "#2ca02c"; legend_name := "C" |}).
  - reflexivity.
  - apply (bool_decide_unpack _). vm_compute. exact I.
  - reflexivity.
Defined.

(** ** The maps of [createState] *)

Lemma fold_insert_lookup_last {K A : Type} `{Countable K} (key : A → K)
    (l : list A) (k : K) :
  foldl (λ m x, <[key x := x]> m) (∅ : gmap K A) l !! k
  = last (filter (λ x, key x = k) l).
Proof.
  induction l as [|x l IH] using rev_ind; [done|].
  rewrite foldl_snoc, filter_app, lookup_insert.
  destruct (decide (key x = k)) as [Hk|Hk].
  - rewrite filter_cons_True by done. rewrite filter_nil. by rewrite last_snoc.
  - rewrite filter_cons_False by done. by rewrite filter_nil, app_nil_r.
Qed.

(** X19. The dataset map answers an identifier with the last dataset of the
    chart that has it, and with nothing when no dataset has it; likewise the
    color of a series is the color of the last legend with its name, and
    black when no legend has that name. *)
Theorem maps_keep_last_entry s id name :
  datasetsMap (initialValue s) !! id
  = last (filter (λ dataset, dataset_id dataset = id) (datasets (initialValue s))) ∧
  legendColor s name
  = default "#000000"
      (legend_color
         <$> last (filter (λ legend, legend_name legend = name)
                          (legends (initialValue s)))).
Proof.
  split.
  - apply fold_insert_lookup_last.
  - unfold legendColor, legendsMap. by rewrite fold_insert_lookup_last.
Qed.

(** ** [paints] *)

(** X20. [paints] gives the first color from 75 up, the second from 50 to 74
    and the third from 25 to 49; every other value gets the fourth color,
    which besides the values below 25 covers the values strictly between 49
    and 50 and strictly between 74 and 75. *)
Theorem paints_bands (value : Q) :
  (paints value = "bg-[#B0DA86]" ↔ (75 <= value)%Q) ∧
  (paints value = "bg-[#D7EDC2]" ↔ (50 <= value ∧ value <= 74)%Q) ∧
  (paints value = "bg-[#FFE2E2]" ↔ (25 <= value ∧ value <= 49)%Q) ∧
  (paints value = "bg-[#F59E9E]" ↔
   (value < 25 ∨ (49 < value ∧ value < 50) ∨ (74 < value ∧ value < 75))%Q).
Proof.
  assert (Hb : ∀ a b : Q, if Qle_bool a b then (a <= b)%Q else (b < a)%Q).
  { intros a b. destruct (Qle_bool a b) eqn:E; [by apply Qle_bool_iff|].
    apply Qnot_le_lt. intros H%Qle_bool_iff. congruence. }
  unfold paints.
  pose proof (Hb 75%Q value) as H75. pose proof (Hb 50%Q value) as H50.
  pose proof (Hb value 74%Q) as H74. pose proof (Hb 25%Q value) as H25.
  pose proof (Hb value 49%Q) as H49.
  destruct (Qle_bool 75 value), (Qle_bool 50 value), (Qle_bool value 74),
    (Qle_bool 25 value), (Qle_bool value 49); simpl;
    (split_and!; (split; [intros Hs; try discriminate Hs; try lra
                         |intros Hq; try reflexivity; exfalso; lra])).
Qed.
